(** * OSD Lyrics player proxy: [python/player_proxy.py]

    A shallow embedding of [BasePlayerProxy] (the registry of connected
    players) and [BasePlayer] (one session wrapping one backend player),
    followed by the properties of the adapter that are checked against it.

    Conventions of the embedding:
    - a Python method that mutates [self] and may raise is a computation in
      the state-and-exception monad [M]: the state it leaves behind is kept
      when it raises, as in Python;
    - every call that crosses the boundary of the adapter (a method of the
      derived player class, the driver's [do_connect_player], a D-Bus signal
      or property assignment, the disconnect callback) appends one [Event] to
      a chronological log, so that "calls the backend exactly once" is a
      statement about the log;
    - Python integers are [Z] ([//] with a positive divisor is [Z.div]),
      D-Bus doubles are the kernel's IEEE-754 binary64 floats, capability
      sets are [gset Z], the registry dictionary is a [gmap] with string
      keys. *)

From Stdlib Require Import ZArith Floats Lia Sorted.
From stdpp Require Import base option list gmap strings pretty.

Local Open Scope Z_scope.

(** ** Enumerations *)

Module CAPS.
Definition NEXT : Z := Z.shiftl 1 0.
Definition PREV : Z := Z.shiftl 1 1.
Definition PAUSE : Z := Z.shiftl 1 2.
Definition PLAY : Z := Z.shiftl 1 3.
Definition SEEK : Z := Z.shiftl 1 4.
Definition PROVIDE_METADATA : Z := Z.shiftl 1 5.
End CAPS.

Module STATUS.
Inductive t := PLAYING | PAUSED | STOPPED.

Definition value (s : t) : Z :=
  match s with PLAYING => 0 | PAUSED => 1 | STOPPED => 2 end.

Definition eqb (a b : t) : bool := Z.eqb (value a) (value b).
End STATUS.

(** ** Exceptions and the monad *)

(** [BaseError] is [errors.BaseError]; its [cause] is the [__cause__] that
    [raise_from] attaches.  [ConnectPlayerError] keeps its argument tuple.
    [OtherError] stands for any other exception a collaborator raises. *)
#[warnings="-register-all"]
Inductive exn :=
| NotImplementedError
| TypeError (msg : string)
| AttributeError (msg : string)
| BaseError (msg : string) (cause : option exn)
| ConnectPlayerError (args : list string)
| OtherError (tag : nat).

Inductive result (A : Type) :=
| Ok (a : A)
| Raise (e : exn).
Arguments Ok {A} a.
Arguments Raise {A} e.

Definition M (S A : Type) : Type := S -> result A * S.

#[global] Instance M_ret {S} : MRet (M S) := fun A a s => (Ok a, s).

#[global] Instance M_bind {S} : MBind (M S) := fun A B f m s =>
  match m s with
  | (Ok a, s') => f a s'
  | (Raise e, s') => (Raise e, s')
  end.

Definition raise {S A} (e : exn) : M S A := fun s => (Raise e, s).

(** [try: m except TypeError as e: h e] *)
Definition except_TypeError {S A} (m : M S A) (h : exn -> M S A) : M S A :=
  fun s =>
    match m s with
    | (Raise (TypeError msg), s') => h (TypeError msg) s'
    | r => r
    end.

(** ** The Timer *)

(** Modelled from the spec: the [timer] module ([timer.Timer]) is imported by
    the source but is not part of it.  Section 4.1 of the specification: a
    run state among running, paused and stopped; [time] reads or resets the
    extrapolated position in integer milliseconds; while running, [time] is
    the last-set base position plus the wall-clock time elapsed since the
    last transition or explicit set; while paused or stopped it is frozen,
    and [stop] freezes without zeroing.  The monotonic clock is the [now]
    argument.  A new Timer reads 0 and is not running. *)
Module Timer.
Inductive run_state := running | paused | stopped.

Record t := mk { state : run_state; base : Z; mark : Z }.

Definition new (now : Z) : t := {| state := stopped; base := 0; mark := now |}.

Definition time (tm : t) (now : Z) : Z :=
  match state tm with
  | running => base tm + (now - mark tm)
  | paused | stopped => base tm
  end.

Definition set_time (tm : t) (v : Z) (now : Z) : t :=
  {| state := state tm; base := v; mark := now |}.

Definition play (tm : t) (now : Z) : t :=
  {| state := running; base := time tm now; mark := now |}.

Definition pause (tm : t) (now : Z) : t :=
  {| state := paused; base := time tm now; mark := now |}.

Definition stop (tm : t) (now : Z) : t :=
  {| state := stopped; base := time tm now; mark := now |}.
End Timer.

(** ** Values that cross the bus *)

(** The values of an MPRIS2 metadata dictionary. *)
Inductive MValue :=
| MStr (s : string)
| MInt (i : Z)
| MStrList (l : list string).

(** The [Metadata] objects a backend returns are used through [to_mpris2]
    only. *)
Record Metadata := { to_mpris2 : gmap string MValue }.

Inductive PropValue :=
| PBool (b : bool)
| PStatus (s : STATUS.t)
| PDict (d : gmap string MValue).

(** The methods of the derived player class that the adapter calls. *)
Inductive Call :=
| CGetStatus
| CGetMetadata
| CGetPosition
| CGetCaps
| CSetPosition (pos : Z)
| CSetVolume (volume : float).

(** What an observer of the adapter sees, oldest first.  [path] is the
    object path of the session concerned. *)
Inductive Event :=
| BackendCall (path : string) (c : Call)
| DriverCall (player_name : string)
| PropertySet (path : string) (prop : string) (v : PropValue)
| Seeked (path : string) (position : Z)
| PlayerLost (player_name : string)
| RemovedFromConnection (path : string)
| DisconnectCbCalled (path : string).

(** ** State *)

(** The only callable the source ever registers with [set_disconnect_cb] is
    the proxy's bound method [_player_lost_cb]. *)
Inductive Callback := player_lost_cb.

(** [BasePlayerProxy]: the name, the class name used in its error message,
    and [_connected_players].  A player is referred to by its index in the
    heap of player objects; a key can be bound to [None] (see
    [ConnectPlayer]). *)
Record BasePlayerProxy := {
  class_name : string;
  proxy_name : string;
  _connected_players : gmap string (option nat);
}.

(** Everything outside one player object: the proxy, the monotonic clock (in
    milliseconds) and the log. *)
Record Env := {
  proxy : BasePlayerProxy;
  now : Z;
  log : list Event;
}.

(** A [BasePlayer] object.  [derived] is the state of the derived class, on
    which its own methods ([get_position] and the like) operate.  The caches
    of the repeat mode and of the shuffle flag are left out. *)
Record BasePlayer (B : Type) := {
  _object_path : string;
  _name : string;
  _disconnect_cb : option Callback;
  _connected : bool;
  _timer : option Timer.t;
  _status : option STATUS.t;
  _metadata : option (gmap string MValue);
  _current_trackid : Z;
  _caps : option (gset Z);
  derived : B;
}.
Arguments _object_path {B} _.
Arguments _name {B} _.
Arguments _disconnect_cb {B} _.
Arguments _connected {B} _.
Arguments _timer {B} _.
Arguments _status {B} _.
Arguments _metadata {B} _.
Arguments _current_trackid {B} _.
Arguments _caps {B} _.
Arguments derived {B} _.

(** The methods a derived class reimplements.  Each may raise and may change
    the derived state. *)
Class Backend (B : Type) := {
  get_status : B -> result STATUS.t * B;
  get_metadata : B -> result Metadata * B;
  get_position : B -> result Z * B;
  get_caps : B -> result (gset Z) * B;
  set_position : Z -> B -> result unit * B;
  set_volume : float -> B -> result unit * B;
}.

(** [BasePlayer] itself: every one of these raises [NotImplementedError]. *)
Definition abstract_backend : Backend unit := {|
  get_status b := (Raise NotImplementedError, b);
  get_metadata b := (Raise NotImplementedError, b);
  get_position b := (Raise NotImplementedError, b);
  get_caps b := (Raise NotImplementedError, b);
  set_position _ b := (Raise NotImplementedError, b);
  set_volume _ b := (Raise NotImplementedError, b);
|}.

Section Setters.
Context {B : Type}.

Definition set_disconnect_cb_field (v : option Callback) (p : BasePlayer B) :=
  {| _object_path := _object_path p; _name := _name p; _disconnect_cb := v;
     _connected := _connected p; _timer := _timer p; _status := _status p;
     _metadata := _metadata p; _current_trackid := _current_trackid p;
     _caps := _caps p; derived := derived p |}.

Definition set_connected (v : bool) (p : BasePlayer B) :=
  {| _object_path := _object_path p; _name := _name p;
     _disconnect_cb := _disconnect_cb p;
     _connected := v; _timer := _timer p; _status := _status p;
     _metadata := _metadata p; _current_trackid := _current_trackid p;
     _caps := _caps p; derived := derived p |}.

Definition set_timer (v : option Timer.t) (p : BasePlayer B) :=
  {| _object_path := _object_path p; _name := _name p;
     _disconnect_cb := _disconnect_cb p;
     _connected := _connected p; _timer := v; _status := _status p;
     _metadata := _metadata p; _current_trackid := _current_trackid p;
     _caps := _caps p; derived := derived p |}.

Definition set_status (v : option STATUS.t) (p : BasePlayer B) :=
  {| _object_path := _object_path p; _name := _name p;
     _disconnect_cb := _disconnect_cb p;
     _connected := _connected p; _timer := _timer p; _status := v;
     _metadata := _metadata p; _current_trackid := _current_trackid p;
     _caps := _caps p; derived := derived p |}.

Definition set_metadata (v : option (gmap string MValue)) (p : BasePlayer B) :=
  {| _object_path := _object_path p; _name := _name p;
     _disconnect_cb := _disconnect_cb p;
     _connected := _connected p; _timer := _timer p; _status := _status p;
     _metadata := v; _current_trackid := _current_trackid p;
     _caps := _caps p; derived := derived p |}.

Definition set_current_trackid (v : Z) (p : BasePlayer B) :=
  {| _object_path := _object_path p; _name := _name p;
     _disconnect_cb := _disconnect_cb p;
     _connected := _connected p; _timer := _timer p; _status := _status p;
     _metadata := _metadata p; _current_trackid := v;
     _caps := _caps p; derived := derived p |}.

Definition set_caps (v : option (gset Z)) (p : BasePlayer B) :=
  {| _object_path := _object_path p; _name := _name p;
     _disconnect_cb := _disconnect_cb p;
     _connected := _connected p; _timer := _timer p; _status := _status p;
     _metadata := _metadata p; _current_trackid := _current_trackid p;
     _caps := v; derived := derived p |}.

Definition set_derived (v : B) (p : BasePlayer B) :=
  {| _object_path := _object_path p; _name := _name p;
     _disconnect_cb := _disconnect_cb p;
     _connected := _connected p; _timer := _timer p; _status := _status p;
     _metadata := _metadata p; _current_trackid := _current_trackid p;
     _caps := _caps p; derived := v |}.
End Setters.

Definition set_connected_players (m : gmap string (option nat)) (e : Env) : Env :=
  {| proxy := {| class_name := class_name (proxy e);
                 proxy_name := proxy_name (proxy e);
                 _connected_players := m |};
     now := now e; log := log e |}.

Definition set_now (t : Z) (e : Env) : Env :=
  {| proxy := proxy e; now := t; log := log e |}.

Definition append_log (ev : Event) (e : Env) : Env :=
  {| proxy := proxy e; now := now e; log := log e ++ [ev] |}.

(** ** Python comparisons used by [caps_changed] *)

(** The operands of the comparison in [caps_changed]: an integer capability
    or a capability set. *)
Inductive pyobj :=
| PyInt (i : Z)
| PySet (s : gset Z).

(** [a != b]: objects of unrelated types are never equal. *)
Definition py_ne (a b : pyobj) : bool :=
  match a, b with
  | PyInt i, PyInt j => negb (Z.eqb i j)
  | PySet s, PySet t => negb (bool_decide (s = t))
  | _, _ => true
  end.

(** [x in s] *)
Definition py_in (x : Z) (s : gset Z) : bool := bool_decide (x ∈ s).

(** [a in b != c in d].  Python chains comparison operators, [in] and [!=]
    alike: the expression is [(a in b) and (b != c) and (c in d)]. *)
Definition chained_in_ne_in (a : Z) (b : gset Z) (c : Z) (d : gset Z) : bool :=
  py_in a b && py_ne (PySet b) (PyInt c) && py_in c d.

(** The dictionary literal of [caps_changed], in insertion order. *)
Definition caps_map : list (Z * string) :=
  [ (CAPS.NEXT, "CanGoNext");
    (CAPS.PREV, "CanGoPrevious");
    (CAPS.PLAY, "CanPlay");
    (CAPS.PAUSE, "CanPause");
    (CAPS.SEEK, "CanSeek") ]%string.

(** ** [BasePlayer] *)

(** A method of a player runs on the player object and its environment. *)
Definition PM (B A : Type) : Type := M (BasePlayer B * Env) A.

Section BasePlayer.
Context {B : Type} `{!Backend B}.

Definition get_self : PM B (BasePlayer B) := fun s => (Ok (fst s), s).

Definition modify_self (f : BasePlayer B -> BasePlayer B) : PM B unit :=
  fun s => (Ok tt, (f (fst s), snd s)).

Definition get_env : PM B Env := fun s => (Ok (snd s), s).

Definition modify_env (f : Env -> Env) : PM B unit :=
  fun s => (Ok tt, (fst s, f (snd s))).

Definition emit (ev : Event) : PM B unit := modify_env (append_log ev).

(** A call of a method of the derived class: logged, then run on the
    derived state. *)
Definition backend_call {A} (c : Call) (f : B -> result A * B) : PM B A :=
  fun s =>
    let (r, b') := f (derived (fst s)) in
    (r, (set_derived b' (fst s),
         append_log (BackendCall (_object_path (fst s)) c) (snd s))).

Fixpoint for_each {A} (l : list A) (body : A -> PM B unit) : PM B unit :=
  match l with
  | [] => mret tt
  | x :: l' => body x;; for_each l' body
  end.

(** Modelled from the spec: [dbusext.service.property] is imported by the
    source but is not part of it.  An assignment [self.Prop = v] runs the
    setter declared with [@Prop.setter] and republishes the property, which
    is one change event carrying the assigned value. *)
Definition assign_property (prop : string) (setter : PM B unit) (v : PropValue)
  : PM B unit :=
  setter;;
  p ← get_self;
  emit (PropertySet (_object_path p) prop v).

(** [self._timer.time] *)
Definition timer_time : PM B Z :=
  p ← get_self;
  match _timer p with
  | Some tm => e ← get_env; mret (Timer.time tm (now e))
  | None => raise (AttributeError "'NoneType' object has no attribute 'time'")
  end.

(** [self._timer.time = v] *)
Definition timer_set_time (v : Z) : PM B unit :=
  p ← get_self;
  match _timer p with
  | Some tm =>
      e ← get_env; modify_self (set_timer (Some (Timer.set_time tm v (now e))))
  | None => raise (AttributeError "'NoneType' object has no attribute 'time'")
  end.

Definition set_disconnect_cb (disconnect_cb : option Callback) : PM B unit :=
  modify_self (set_disconnect_cb_field disconnect_cb).

(** [BasePlayerProxy._player_lost_cb(player)], with [player] the object the
    computation runs on. *)
Definition _player_lost_cb : PM B unit :=
  p ← get_self;
  e ← get_env;
  match _connected_players (proxy e) !! _name p with
  | Some _ =>
      modify_env (set_connected_players
                    (delete (_name p) (_connected_players (proxy e))));;
      emit (PlayerLost (_name p))
  | None => mret tt
  end.

Definition call_cb (cb : Callback) : PM B unit :=
  p ← get_self;
  emit (DisconnectCbCalled (_object_path p));;
  match cb with
  | player_lost_cb => _player_lost_cb
  end.

Definition disconnect : PM B unit :=
  p ← get_self;
  if _connected p then
    modify_self (set_connected false);;
    emit (RemovedFromConnection (_object_path p));;
    match _disconnect_cb p with
    | Some cb => call_cb cb
    | None => mret tt
    end
  else mret tt.

(** [status_map] of [_setup_timer_status]: the Timer method named after the
    status. *)
Definition status_map (status : STATUS.t) : Timer.t -> Z -> Timer.t :=
  match status with
  | STATUS.PAUSED => Timer.pause
  | STATUS.PLAYING => Timer.play
  | STATUS.STOPPED => Timer.stop
  end.

(** A Timer object is truthy, so [if self._timer] tests for [None]. *)
Definition _setup_timer_status (status : STATUS.t) : PM B unit :=
  p ← get_self;
  match _timer p with
  | Some tm =>
      e ← get_env; modify_self (set_timer (Some (status_map status tm (now e))))
  | None => mret tt
  end.

Definition _get_cached_status : PM B STATUS.t :=
  p ← get_self;
  match _status p with
  | None =>
      st ← backend_call CGetStatus get_status;
      modify_self (set_status (Some st));;
      mret st
  | Some st => mret st
  end.

Definition _setup_timer : PM B unit :=
  p ← get_self;
  match _timer p with
  | None =>
      e ← get_env;
      modify_self (set_timer (Some (Timer.new (now e))));;
      st ← _get_cached_status;
      _setup_timer_status st
  | Some _ => mret tt
  end.

Definition _get_cached_position : PM B Z :=
  p ← get_self;
  match _timer p with
  | None =>
      _setup_timer;;
      st ← _get_cached_status;
      if negb (STATUS.eqb st STATUS.STOPPED) then
        pos ← backend_call CGetPosition get_position;
        timer_set_time pos
      else mret tt
  | Some _ => mret tt
  end;;
  timer_time.

Definition _get_current_trackid (p : BasePlayer B) : string :=
  "/" +:+ pretty (_current_trackid p).

Definition _make_metadata (metadata : Metadata) : PM B (gmap string MValue) :=
  p ← get_self;
  mret (<["mpris:trackid" := MStr (_get_current_trackid p)]> (to_mpris2 metadata)).

Definition _get_cached_caps : PM B (gset Z) :=
  p ← get_self;
  match _caps p with
  | None =>
      caps ← backend_call CGetCaps get_caps;
      modify_self (set_caps (Some caps));;
      mret caps
  | Some caps => mret caps
  end.
End BasePlayer.

Section BusMethods.
Context {B : Type} `{!Backend B}.

(** [Seek(offset)], [offset] in microseconds. *)
Definition Seek (offset : Z) : PM B unit :=
  pos ← _get_cached_position;
  let pos := pos + offset / 1000 in
  let pos := if pos <? 0 then 0 else pos in
  backend_call (CSetPosition pos) (set_position pos).

(** [SetPosition(trackid, position)], [position] in microseconds. *)
Definition SetPosition (trackid : string) (position : Z) : PM B unit :=
  p ← get_self;
  if negb (String.eqb trackid (_get_current_trackid p)) then mret tt
  else backend_call (CSetPosition (position / 1000)) (set_position (position / 1000)).

(** The getter of the [Position] property. *)
Definition Position : PM B Z := _get_cached_position.

(** [@Volume.dbus_setter]: what a client's write of the [Volume] property
    runs. *)
Definition Volume_dbus_setter (volume : float) : PM B unit :=
  let volume := if PrimFloat.ltb volume 0%float then 0%float else volume in
  let volume := if PrimFloat.ltb 1%float volume then 1%float else volume in
  backend_call (CSetVolume volume) (set_volume volume).

(** [@PlaybackStatus.setter] and [@Metadata.setter] store the value; the
    setters of the five capability properties are [pass]. *)
Definition PlaybackStatus_setter (status : STATUS.t) : PM B unit :=
  modify_self (set_status (Some status)).

Definition Metadata_setter (metadata : gmap string MValue) : PM B unit :=
  modify_self (set_metadata (Some metadata)).

Definition Can_setter (value : bool) : PM B unit := mret tt.

Definition track_changed (metadata : option Metadata) : PM B unit :=
  modify_self (fun p => set_current_trackid (_current_trackid p + 1) p);;
  p ← get_self;
  match _timer p with
  | Some _ =>
      pos ← backend_call CGetPosition get_position;
      timer_set_time pos
  | None => mret tt
  end;;
  metadata ← match metadata with
             | None => backend_call CGetMetadata get_metadata
             | Some md => mret md
             end;
  dct ← _make_metadata metadata;
  assign_property "Metadata" (Metadata_setter dct) (PDict dct).

Definition status_changed : PM B unit :=
  status ← backend_call CGetStatus get_status;
  _setup_timer_status status;;
  assign_property "PlaybackStatus" (PlaybackStatus_setter status) (PStatus status).

(** In the loop [self._caps] is the set just stored, [caps]. *)
Definition caps_changed : PM B unit :=
  p ← get_self;
  let orig_caps := _caps p in
  caps ← backend_call CGetCaps get_caps;
  modify_self (set_caps (Some caps));;
  match orig_caps with
  | Some orig_caps =>
      for_each caps_map (fun '(cap, method) =>
        if chained_in_ne_in cap orig_caps cap caps then
          assign_property method (Can_setter (py_in cap caps)) (PBool (py_in cap caps))
        else mret tt)
  | None => mret tt
  end.

Definition position_changed (position : Z) : PM B unit :=
  p ← get_self;
  match _timer p with
  | Some _ => timer_set_time position
  | None => mret tt
  end;;
  emit (Seeked (_object_path p) (position * 1000)).
End BusMethods.

(** ** [BasePlayerProxy] *)

(** What the driver's [do_connect_player] does: it raises, returns [None], or
    creates a player object it names [name], whose derived state is [b], and
    returns it with its connection flag as [connected]. *)
Inductive DriverOutcome (B : Type) :=
| DriverRaises (e : exn)
| DriverReturnsNone
| DriverCreates (name : string) (b : B) (connected : bool).
Arguments DriverRaises {B} e.
Arguments DriverReturnsNone {B}.
Arguments DriverCreates {B} name b connected.

(** The driver: the subclass of [BasePlayerProxy], with a state of its own. *)
Class Driver (D B : Type) := {
  do_connect_player : string -> D -> DriverOutcome B * D;
}.

(** The proxy, its driver and the player objects created so far. *)
Record World (D B : Type) := {
  players : list (BasePlayer B);
  driver : D;
  env : Env;
}.
Arguments players {D B} _.
Arguments driver {D B} _.
Arguments env {D B} _.

(** A method of the proxy runs on the whole world. *)
Definition PX (D B A : Type) : Type := M (World D B) A.

Section BasePlayerProxy.
Context {D B : Type} `{!Backend B} `{!Driver D B}.

(** The [consts] module is not part of the source. *)
Variable PLAYER_PROXY_OBJECT_PATH_PREFIX : string.

(** [BasePlayer.__init__(proxy, name)] *)
Definition BasePlayer_init (proxy : BasePlayerProxy) (name : string) (b : B)
  : BasePlayer B :=
  {| _object_path :=
       PLAYER_PROXY_OBJECT_PATH_PREFIX +:+ proxy_name proxy +:+ "/" +:+ name;
     _name := name;
     _disconnect_cb := None;
     _connected := true;
     _timer := None;
     _status := None;
     _metadata := None;
     _current_trackid := 0;
     _caps := None;
     derived := b |}.

(** [BasePlayerProxy.__init__(name)] *)
Definition BasePlayerProxy_init (cls name : string) : BasePlayerProxy :=
  {| class_name := cls; proxy_name := name; _connected_players := ∅ |}.

Definition get_world : PX D B (World D B) := fun w => (Ok w, w).

Definition modify_world_env (f : Env -> Env) : PX D B unit :=
  fun w => (Ok tt, {| players := players w; driver := driver w; env := f (env w) |}).

(** Runs a method on the player object [r].  No reference is ever forged,
    so the first branch is the only one taken. *)
Definition on_player {A} (r : nat) (m : PM B A) : PX D B A :=
  fun w =>
    match players w !! r with
    | Some p =>
        let '(res, (p', e')) := m (p, env w) in
        (res, {| players := <[r := p']> (players w); driver := driver w; env := e' |})
    | None => (Raise (OtherError 0), w)
    end.

(** [self.do_connect_player(player_name)]: logged, then the outcome the
    driver chooses. *)
Definition call_do_connect_player (player_name : string) : PX D B (option nat) :=
  fun w =>
    let (o, d') := do_connect_player player_name (driver w) in
    let e' := append_log (DriverCall player_name) (env w) in
    match o with
    | DriverRaises e =>
        (Raise e, {| players := players w; driver := d'; env := e' |})
    | DriverReturnsNone =>
        (Ok None, {| players := players w; driver := d'; env := e' |})
    | DriverCreates name b connected =>
        let p := set_connected connected (BasePlayer_init (proxy (env w)) name b) in
        (Ok (Some (length (players w))),
         {| players := players w ++ [p]; driver := d'; env := e' |})
    end.

(** [self._connected_players.setdefault(key, None)] *)
Definition setdefault_None (key : string) : PX D B (option nat) :=
  w ← get_world;
  match _connected_players (proxy (env w)) !! key with
  | Some v => mret v
  | None =>
      modify_world_env
        (set_connected_players (<[key := None]> (_connected_players (proxy (env w)))));;
      mret None
  end.

Definition ConnectPlayer (player_name : string) : PX D B string :=
  v ← setdefault_None player_name;
  match v with
  | Some r => on_player r (p ← get_self; mret (_object_path p))
  | None =>
      w ← get_world;
      player ← except_TypeError (call_do_connect_player player_name)
                 (fun e => raise (BaseError
                    (class_name (proxy (env w)) +:+ " cannot instantiate Player["
                     +:+ proxy_name (proxy (env w)) +:+ ", " +:+ player_name +:+ "]")
                    (Some e)));
      match player with
      | Some r =>
          connected ← on_player r (p ← get_self; mret (_connected p));
          if (connected : bool) then
            on_player r (set_disconnect_cb (Some player_lost_cb));;
            modify_world_env (fun e =>
              set_connected_players
                (<[player_name := Some r]> (_connected_players (proxy e))) e);;
            on_player r (p ← get_self; mret (_object_path p))
          else raise (ConnectPlayerError ["%s cannot be connected"; player_name])
      | None => raise (ConnectPlayerError ["%s cannot be connected"; player_name])
      end
  end.
End BasePlayerProxy.

(** ** Runs of the adapter *)

(** The calls a client or a backend makes on one player object. *)
Inductive PlayerOp :=
| OpSeek (offset : Z)
| OpSetPosition (trackid : string) (position : Z)
| OpPosition
| OpVolume (volume : float)
| OpTrackChanged (metadata : option Metadata)
| OpStatusChanged
| OpCapsChanged
| OpPositionChanged (position : Z)
| OpDisconnect.

(** The calls on the proxy and on its players, and the passing of time. *)
Inductive Op :=
| OpConnectPlayer (player_name : string)
| OpPlayer (r : nat) (o : PlayerOp)
| OpTick (ms : N).

Section Runs.
Context {D B : Type} `{!Backend B} `{!Driver D B}.
Variable PLAYER_PROXY_OBJECT_PATH_PREFIX : string.

Definition player_op (o : PlayerOp) : PM B unit :=
  match o with
  | OpSeek offset => Seek offset
  | OpSetPosition trackid position => SetPosition trackid position
  | OpPosition => Position;; mret tt
  | OpVolume volume => Volume_dbus_setter volume
  | OpTrackChanged metadata => track_changed metadata
  | OpStatusChanged => status_changed
  | OpCapsChanged => caps_changed
  | OpPositionChanged position => position_changed position
  | OpDisconnect => disconnect
  end.

(** A run of player calls on one object; a call that raises does not stop
    the ones that follow. *)
Definition player_run (ops : list PlayerOp) (s : BasePlayer B * Env)
  : BasePlayer B * Env :=
  fold_left (fun s o => snd (player_op o s)) ops s.

Definition step (o : Op) (w : World D B) : World D B :=
  match o with
  | OpConnectPlayer player_name =>
      snd (ConnectPlayer PLAYER_PROXY_OBJECT_PATH_PREFIX player_name w)
  | OpPlayer r o => snd (on_player r (player_op o) w)
  | OpTick ms =>
      {| players := players w; driver := driver w;
         env := set_now (now (env w) + Z.of_N ms) (env w) |}
  end.

Definition run (ops : list Op) (w : World D B) : World D B :=
  fold_left (fun w o => step o w) ops w.

(** The world when the proxy has just been created. *)
Definition init_world (cls name : string) (d : D) (t0 : Z) : World D B :=
  {| players := []; driver := d;
     env := {| proxy := BasePlayerProxy_init cls name; now := t0; log := [] |} |}.
End Runs.

(** ** Reading the log *)

(** The arguments of the backend's [set_position] calls, oldest first. *)
Definition set_position_calls (l : list Event) : list Z :=
  omap (fun ev => match ev with
                  | BackendCall _ (CSetPosition pos) => Some pos
                  | _ => None
                  end) l.

(** The object paths on which the backend's [get_position] was called. *)
Definition get_position_calls (l : list Event) : list string :=
  omap (fun ev => match ev with
                  | BackendCall path CGetPosition => Some path
                  | _ => None
                  end) l.

(** The volumes passed to the backend's [set_volume]. *)
Definition set_volume_calls (l : list Event) : list float :=
  omap (fun ev => match ev with
                  | BackendCall _ (CSetVolume v) => Some v
                  | _ => None
                  end) l.

(** The names with which the driver's [do_connect_player] was called. *)
Definition driver_calls (l : list Event) : list string :=
  omap (fun ev => match ev with DriverCall n => Some n | _ => None end) l.

(** The property assignments, as pairs of the property and its value. *)
Definition property_sets (l : list Event) : list (string * PropValue) :=
  omap (fun ev => match ev with
                  | PropertySet _ prop v => Some (prop, v)
                  | _ => None
                  end) l.

(** The track ids announced by the republished [Metadata] property. *)
Definition announced_trackids (l : list Event) : list MValue :=
  omap (fun ev => match ev with
                  | PropertySet _ prop (PDict d) =>
                      if String.eqb prop "Metadata" then d !! "mpris:trackid"%string
                      else None
                  | _ => None
                  end) l.

(** The names carried by the [PlayerLost] signals. *)
Definition player_lost_signals (l : list Event) : list string :=
  omap (fun ev => match ev with PlayerLost n => Some n | _ => None end) l.

(** The object paths unpublished from the bus. *)
Definition removals (l : list Event) : list string :=
  omap (fun ev => match ev with RemovedFromConnection path => Some path | _ => None end) l.

(** The object paths for which the disconnect callback was invoked. *)
Definition cb_calls (l : list Event) : list string :=
  omap (fun ev => match ev with DisconnectCbCalled path => Some path | _ => None end) l.

(** ** Concrete collaborators *)

(** A backend that answers from a record and accepts every command. *)
Record Simple := {
  simple_status : STATUS.t;
  simple_position : Z;
  simple_caps : gset Z;
}.

#[global] Instance simple_backend : Backend Simple := {|
  get_status b := (Ok (simple_status b), b);
  get_metadata b := (Ok {| to_mpris2 := ∅ |}, b);
  get_position b := (Ok (simple_position b), b);
  get_caps b := (Ok (simple_caps b), b);
  set_position pos b :=
    (Ok tt, {| simple_status := simple_status b; simple_position := pos;
               simple_caps := simple_caps b |});
  set_volume _ b := (Ok tt, b);
|}.

(** A driver that creates, for every name, a connected player of that name. *)
#[global] Instance simple_driver : Driver unit Simple := {|
  do_connect_player name d :=
    (DriverCreates name {| simple_status := STATUS.PLAYING; simple_position := 0;
                           simple_caps := {[CAPS.PLAY]} |} true, d);
|}.

(** A driver that cannot instantiate anything. *)
Definition failing_driver : Driver unit Simple := {|
  do_connect_player name d := (DriverRaises (TypeError "bad arguments"), d);
|}.

Definition simple_env : Env :=
  {| proxy := {| class_name := "Proxy"; proxy_name := "simple";
                 _connected_players := ∅ |};
     now := 0; log := [] |}.

Definition simple_player (tm : option Timer.t) (st : option STATUS.t)
    (caps : option (gset Z)) (b : Simple) : BasePlayer Simple :=
  {| _object_path := "/p/simple/a"; _name := "a"; _disconnect_cb := None;
     _connected := true; _timer := tm; _status := st; _metadata := None;
     _current_trackid := 0; _caps := caps; derived := b |}.


(** ** The property getters of [BasePlayer] *)

Section Getters.
Context {B : Type} `{!Backend B}.

(** [status_map] of the [PlaybackStatus] getter. *)
Definition PlaybackStatus_string (status : STATUS.t) : string :=
  match status with
  | STATUS.PLAYING => "Playing"
  | STATUS.PAUSED => "Paused"
  | STATUS.STOPPED => "Stopped"
  end.

(** The getter of the [PlaybackStatus] property. *)
Definition PlaybackStatus : PM B string :=
  status ← _get_cached_status;
  mret (PlaybackStatus_string status).

Definition _get_cached_metadata : PM B (gmap string MValue) :=
  p ← get_self;
  match _metadata p with
  | None =>
      metadata ← backend_call CGetMetadata get_metadata;
      dct ← _make_metadata metadata;
      modify_self (set_metadata (Some dct));;
      mret dct
  | Some dct => mret dct
  end.

(** The getter of the [Metadata] property. *)
Definition Metadata_getter : PM B (gmap string MValue) := _get_cached_metadata.

(** The getters of the five capability properties: [cap in
    self._get_cached_caps()]. *)
Definition Can_getter (cap : Z) : PM B bool :=
  caps ← _get_cached_caps;
  mret (py_in cap caps).

Definition CanGoNext : PM B bool := Can_getter CAPS.NEXT.
Definition CanGoPrevious : PM B bool := Can_getter CAPS.PREV.
Definition CanPlay : PM B bool := Can_getter CAPS.PLAY.
Definition CanPause : PM B bool := Can_getter CAPS.PAUSE.
Definition CanSeek : PM B bool := Can_getter CAPS.SEEK.
End Getters.

(** ** [REPEAT] and the [LoopStatus] property *)

Module REPEAT.
Inductive t := NONE | TRACK | ALL.

Definition value (m : t) : Z :=
  match m with NONE => 0 | TRACK => 1 | ALL => 2 end.
End REPEAT.

(** [status_map] of the [LoopStatus] getter. *)
Definition LoopStatus_string (mode : REPEAT.t) : string :=
  match mode with
  | REPEAT.NONE => "None"
  | REPEAT.ALL => "Playlist"
  | REPEAT.TRACK => "Track"
  end.

(** [status_map] of [@LoopStatus.dbus_setter]. *)
Definition LoopStatus_status_map : gmap string REPEAT.t :=
  list_to_map [("None", REPEAT.NONE); ("Playlist", REPEAT.ALL);
               ("Track", REPEAT.TRACK)]%string.

(** What [@LoopStatus.dbus_setter] does with the string a client writes: it
    raises [ValueError], or calls the backend's [set_repeat] with a mode. *)
Inductive LoopStatus_outcome :=
| Raises_ValueError (msg : string)
| Calls_set_repeat (mode : REPEAT.t).

Definition LoopStatus_dbus_setter (loop_status : string) : LoopStatus_outcome :=
  match LoopStatus_status_map !! loop_status with
  | None => Raises_ValueError ("Unknown loop status " +:+ loop_status)
  | Some mode => Calls_set_repeat mode
  end.

(** ** [PlayerInfo] *)

Module PlayerInfo.
Record t := {
  _name : string;
  _appname : string;
  _binname : string;
  _cmd : string;
  _icon : string;
}.

(** [PlayerInfo(name, appname='', binname='', cmd='', icon='')] *)
Definition init (name appname binname cmd icon : string) : t :=
  {| _name := name; _appname := appname; _binname := binname; _cmd := cmd;
     _icon := icon |}.

(** [cls(name, icon=name)] *)
Definition from_name (name : string) : t := init name "" "" "" name.

(** [getattr(self, attr)]; [None] is [AttributeError]. *)
Definition getattr (self : t) (attr : string) : option string :=
  if String.eqb attr "_name" then Some (_name self)
  else if String.eqb attr "_appname" then Some (_appname self)
  else if String.eqb attr "_binname" then Some (_binname self)
  else if String.eqb attr "_cmd" then Some (_cmd self)
  else if String.eqb attr "_icon" then Some (_icon self)
  else None.

Definition keys : list string := ["name"; "appname"; "binname"; "cmd"; "icon"]%string.

(** The loop of [to_dict] over the remaining keys, [ret] being the
    dictionary built so far. *)
Fixpoint to_dict_loop (self : t) (ks : list string) (ret : gmap string string)
  : option (gmap string string) :=
  match ks with
  | [] => Some ret
  | k :: ks' =>
      match getattr self ("_" +:+ k) with
      | Some v => to_dict_loop self ks' (<[k := v]> ret)
      | None => None
      end
  end.

Definition to_dict (self : t) : option (gmap string string) :=
  to_dict_loop self keys ∅.
End PlayerInfo.

(** [ListActivePlayers], [ListSupportedPlayers] and
    [ListActivatablePlayers], given the list the driver returns. *)
Definition list_players (infos : list PlayerInfo.t) : option (list (gmap string string)) :=
  mapM PlayerInfo.to_dict infos.

(** ** Definitions used by the statements *)

(** [m] leaves the observation [f] of the state unchanged, whether it
    returns or raises. *)
Definition preserves {S X A : Type} (f : S -> X) (m : M S A) : Prop :=
  forall s, f (snd (m s)) = f s.

(** A session whose Timer is paused at 5000 ms. *)
Definition seek_state : BasePlayer Simple * Env :=
  (simple_player (Some {| Timer.state := Timer.paused; Timer.base := 5000; Timer.mark := 0 |})
     (Some STATUS.PAUSED) None
     {| simple_status := STATUS.PAUSED; simple_position := 5000; simple_caps := ∅ |},
   simple_env).

(** The session of the capability example: the cached set is
    [{PLAY, SEEK}], the backend now reports [{PLAY, NEXT}]. *)
Definition caps_state : BasePlayer Simple * Env :=
  (simple_player None None (Some {[CAPS.PLAY; CAPS.SEEK]})
     {| simple_status := STATUS.PLAYING; simple_position := 0;
        simple_caps := {[CAPS.PLAY; CAPS.NEXT]} |},
   simple_env).

(** A session that has no Timer yet and whose cached status is [status]; the
    backend is at 4200 ms. *)
Definition fresh_state (status : STATUS.t) : BasePlayer Simple * Env :=
  (simple_player None (Some status) None
     {| simple_status := status; simple_position := 4200; simple_caps := ∅ |},
   simple_env).

(** What [caps_changed] assigns for one entry of [caps_map], as the code
    computes it. *)
Definition caps_assignment (orig_caps caps : gset Z) (entry : Z * string)
  : option (string * PropValue) :=
  if py_in (fst entry) orig_caps && py_in (fst entry) caps
  then Some (snd entry, PBool true) else None.

(** The value of the key [mpris:trackid] for the counter [k]. *)
Definition trackid_value (k : Z) : MValue := MStr ("/" +:+ pretty k).

(** The number of [track_changed] notifications in a run. *)
Fixpoint count_track_changed (ops : list PlayerOp) : Z :=
  match ops with
  | [] => 0
  | OpTrackChanged _ :: ops' => 1 + count_track_changed ops'
  | _ :: ops' => count_track_changed ops'
  end.

(** The run state of the Timer that matches a playback status. *)
Definition timer_state_of (status : STATUS.t) : Timer.run_state :=
  match status with
  | STATUS.PLAYING => Timer.running
  | STATUS.PAUSED => Timer.paused
  | STATUS.STOPPED => Timer.stopped
  end.

(** What a run may do to the track id: the counter and the ids announced. *)
Definition obs_track {B : Type} (s : BasePlayer B * Env) : Z * list MValue :=
  (_current_trackid (fst s), announced_trackids (log (snd s))).

(** The registry dictionary of a world. *)
Definition cp_map {D B : Type} (w : World D B) : gmap string (option nat) :=
  _connected_players (proxy (env w)).

(** The message of the error raised when the driver cannot instantiate a
    player. *)
Definition cannot_instantiate (px : BasePlayerProxy) (name : string) : string :=
  class_name px +:+ " cannot instantiate Player[" +:+ proxy_name px +:+ ", "
  +:+ name +:+ "]".

(** A player on which the proxy has registered its callback. *)
Definition registered {B : Type} (p : BasePlayer B) : bool :=
  match _disconnect_cb p with Some _ => true | None => false end.

(** A registered session of the given name that is no longer connected. *)
Definition lost {B : Type} (name : string) (p : BasePlayer B) : bool :=
  String.eqb (_name p) name && registered p && negb (_connected p).

Definition lost_sessions {B : Type} (name : string) (ps : list (BasePlayer B)) : nat :=
  length (List.filter (lost name) ps).

(** The number of [PlayerLost] signals emitted for a name. *)
Definition lost_signals (name : string) (l : list Event) : nat :=
  length (List.filter (String.eqb name) (player_lost_signals l)).

(** The driver names the player it creates by the name it was asked for
    ("Creates an Player object according to playername"). *)
Definition names_as_requested (D B : Type) `{!Driver D B} : Prop :=
  forall (name : string) (d : D),
    match fst (do_connect_player name d) with
    | DriverCreates n _ _ => n = name
    | _ => True
    end.

(** The invariant of the registry: a name bound to a player is bound to a
    connected, registered player of that name; a connected registered player
    is bound under its name; and there are as many [PlayerLost] signals for a
    name as lost sessions of that name. *)
Record registry_inv {D B : Type} (w : World D B) : Prop := {
  inv_live : forall (n : string) (r : nat),
    cp_map w !! n = Some (Some r) ->
    exists p, players w !! r = Some p /\ _connected p = true /\ _name p = n
              /\ registered p = true;
  inv_registered : forall (r : nat) (p : BasePlayer B),
    players w !! r = Some p -> _connected p = true -> registered p = true ->
    cp_map w !! _name p = Some (Some r);
  inv_lost : forall n : string,
    lost_signals n (log (env w)) = lost_sessions n (players w);
}.

(** What the calls on a player other than [disconnect] leave alone. *)
Definition obs_registry {B : Type} (s : BasePlayer B * Env) :=
  (_name (fst s), _connected (fst s), _disconnect_cb (fst s),
   _connected_players (proxy (snd s)), player_lost_signals (log (snd s))).

(** The prefix of the object paths in the examples. *)
Definition example_prefix : string := "/org/osdlyrics/PlayerProxy/".

(** The world of the examples: a proxy just created, with [simple_driver]. *)
Definition example_world : World unit Simple := init_world "Proxy" "simple" tt 0.

(** Connect, disconnect twice, connect again. *)
Definition example_ops : list Op :=
  [OpConnectPlayer "a"; OpPlayer 0 OpDisconnect; OpPlayer 0 OpDisconnect;
   OpConnectPlayer "a"].

(** The backend methods called, oldest first. *)
Definition backend_calls (l : list Event) : list Call :=
  omap (fun ev => match ev with BackendCall _ c => Some c | _ => None end) l.

(** The positions carried by the [Seeked] signals. *)
Definition seeked_signals (l : list Event) : list Z :=
  omap (fun ev => match ev with Seeked _ position => Some position | _ => None end) l.

(** The identity of a player object: its name and its object path. *)
Definition obs_identity {B : Type} (s : BasePlayer B * Env) : string * string :=
  (_name (fst s), _object_path (fst s)).

(** [m] runs the same way whatever the connection flag is, and leaves the
    flag as it found it. *)
Definition flag_blind {B A : Type} (c : bool) (m : PM B A) : Prop :=
  forall (p : BasePlayer B) (e : Env),
    m (set_connected c p, e)
    = (let '(r, (p', e')) := m (p, e) in (r, (set_connected c p', e'))).

(** The dictionary [PlayerInfo.to_dict] builds. *)
Definition to_dict_map (p : PlayerInfo.t) : gmap string string :=
  <["icon" := PlayerInfo._icon p]>
    (<["cmd" := PlayerInfo._cmd p]>
       (<["binname" := PlayerInfo._binname p]>
          (<["appname" := PlayerInfo._appname p]>
             (<["name" := PlayerInfo._name p]> ∅)))).

(** A session of [BasePlayer] itself, every backend method of which raises
    [NotImplementedError]. *)
Definition abstract_state : BasePlayer unit * Env :=
  ({| _object_path := "/p/simple/a"; _name := "a"; _disconnect_cb := None;
      _connected := true; _timer := None; _status := None; _metadata := None;
      _current_trackid := 0; _caps := None; derived := tt |},
   simple_env).

(** A driver that fails with an exception other than [TypeError]. *)
Definition crashing_driver : Driver unit Simple := {|
  do_connect_player name d := (DriverRaises (OtherError 7), d);
|}.

(** The world after a connection and a disconnection. *)
Definition lost_world : World unit Simple :=
  run example_prefix [OpConnectPlayer "a"; OpPlayer 0 OpDisconnect] example_world.

(** * Properties *)

(** ** Frame reasoning *)

Section Frame.
Context {S X : Type} (f : S -> X).

Lemma preserves_ret {A} (a : A) : preserves f (mret a : M S A).
Proof. intros s. reflexivity. Qed.

Lemma preserves_raise {A} (e : exn) : preserves f (raise e : M S A).
Proof. intros s. reflexivity. Qed.

Lemma preserves_bind {A A'} (m : M S A) (k : A -> M S A') :
  preserves f m -> (forall a, preserves f (k a)) -> preserves f (m ≫= k).
Proof.
  intros Hm Hk s. unfold mbind, M_bind.
  specialize (Hm s). destruct (m s) as [[a|e] s1]; simpl in *.
  - rewrite Hk. exact Hm.
  - exact Hm.
Qed.
End Frame.

Lemma omap_snoc {A A'} (g : A -> option A') (l : list A) (x : A) :
  omap g (l ++ [x]) = omap g l ++ (match g x with Some y => [y] | None => [] end).
Proof. rewrite omap_app. simpl. destruct (g x); reflexivity. Qed.

Section PlayerFrame.
Context {B : Type} `{!Backend B} {X : Type} (f : BasePlayer B * Env -> X).

Lemma preserves_get_self : preserves f get_self.
Proof. intros s. reflexivity. Qed.

Lemma preserves_get_env : preserves f get_env.
Proof. intros s. reflexivity. Qed.

Lemma preserves_modify_self g :
  (forall p e, f (g p, e) = f (p, e)) -> preserves f (modify_self g).
Proof. intros H [p e]. apply H. Qed.

Lemma preserves_modify_env g :
  (forall p e, f (p, g e) = f (p, e)) -> preserves f (modify_env g).
Proof. intros H [p e]. apply H. Qed.

Lemma preserves_backend_call {A} c (m : B -> result A * B) :
  (forall p e b,
     f (set_derived b p, append_log (BackendCall (_object_path p) c) e) = f (p, e)) ->
  preserves f (backend_call c m).
Proof.
  intros H [p e]. unfold backend_call. simpl.
  destruct (m (derived p)) as [r b']. simpl. apply H.
Qed.

Lemma preserves_for_each {A} (l : list A) (body : A -> PM B unit) :
  (forall x, preserves f (body x)) -> preserves f (for_each l body).
Proof.
  intros Hb. induction l as [|x l IH]; simpl.
  - apply preserves_ret.
  - apply preserves_bind; [apply Hb | intros _; exact IH].
Qed.
End PlayerFrame.

(** Closes the side condition of a primitive: the observation does not see
    the field written or the event logged. *)
Ltac frame_obs :=
  intros; cbn [fst snd log append_log set_connected_players proxy];
  unfold set_position_calls, get_position_calls, set_volume_calls, driver_calls,
    property_sets, announced_trackids, player_lost_signals, removals, cb_calls;
  rewrite ?omap_snoc; cbn; rewrite ?app_nil_r; reflexivity.

Ltac frame :=
  repeat first
    [ apply preserves_ret
    | apply preserves_raise
    | apply preserves_get_self
    | apply preserves_get_env
    | apply preserves_bind; [| intros ?]
    | apply preserves_for_each; intros ?
    | apply preserves_modify_self; frame_obs
    | apply preserves_modify_env; frame_obs
    | apply preserves_backend_call; frame_obs
    | match goal with
      | |- preserves _ (match ?x with _ => _ end) => destruct x
      | |- preserves _ (if ?x then _ else _) => destruct x
      end ].

(** One step of a computation: [(m ≫= k) s] is a case on the result of
    [m s]. *)
Ltac bind_step :=
  match goal with
  | |- context [ @mbind ?MM ?I ?A ?A' ?k ?m ?s ] =>
      change (@mbind MM I A A' k m s)
        with (match m s with
              | (Ok a, s1) => k a s1
              | (Raise e, s1) => (Raise e, s1)
              end)
  end.

Ltac mred :=
  repeat first
    [ bind_step
    | progress cbn [get_self get_env modify_self modify_env emit mret M_ret raise
                    fst snd] ].

(** ** Seek *)

Section Seek.
Context {B : Type} `{!Backend B}.


End Seek.


(** ** SetPosition *)

Section SetPosition.
Context {B : Type} `{!Backend B}.

(** C3.  A [SetPosition] whose [trackid] is not the currently announced
    track id returns without any effect: the player, its backend, the proxy
    and the log are as before.  When the id matches, the call is one backend
    [set_position], with the microseconds floor-divided by 1000, and nothing
    else is logged. *)
Theorem SetPosition_guard (s : BasePlayer B * Env) (trackid : string) (position : Z) :
  (trackid <> _get_current_trackid (fst s) ->
     SetPosition trackid position s = (Ok tt, s))
  /\ (trackid = _get_current_trackid (fst s) ->
        SetPosition trackid position s
        = backend_call (CSetPosition (position / 1000)) (set_position (position / 1000)) s
        /\ log (snd (snd (SetPosition trackid position s)))
           = log (snd s)
               ++ [BackendCall (_object_path (fst s)) (CSetPosition (position / 1000))]
        /\ set_position_calls (log (snd (snd (SetPosition trackid position s))))
           = set_position_calls (log (snd s)) ++ [position / 1000]).
Proof.
  destruct s as [p e]. unfold SetPosition, mbind, M_bind. cbn [get_self fst snd].
  split; intros Hid.
  - apply String.eqb_neq in Hid. rewrite Hid. reflexivity.
  - apply String.eqb_eq in Hid. rewrite Hid. cbn [negb].
    split; [reflexivity|].
    unfold backend_call. cbn [fst snd].
    destruct (set_position _ _) as [r b']. cbn [fst snd log append_log].
    split; [reflexivity|].
    unfold set_position_calls. rewrite omap_snoc. reflexivity.
Qed.
End SetPosition.

(** On a session announcing track 0: a request for track 3 changes nothing,
    a request for track 0 at 1,234,567 microseconds sends 1234. *)
Lemma SetPosition_guard_witness :
  SetPosition "/3" 1234567 seek_state = (Ok tt, seek_state)
  /\ set_position_calls (log (snd (snd (SetPosition "/0" 1234567 seek_state)))) = [1234].
Proof.
  split.
  - apply (proj1 (SetPosition_guard seek_state "/3" 1234567)).
    vm_compute. discriminate.
  - apply (proj2 (SetPosition_guard seek_state "/0" 1234567)).
    vm_compute. reflexivity.
Defined.

(** ** Volume *)





Section Volume.
Context {B : Type} `{!Backend B}.


(** NaN compares false with everything, so both tests fail on it and it is
    passed on as it is. *)
Lemma Volume_dbus_setter_nan (s : BasePlayer B * Env) :
  set_volume_calls (log (snd (snd (Volume_dbus_setter nan s))))
  = set_volume_calls (log (snd s)) ++ [nan].
Proof.
  unfold Volume_dbus_setter. change (PrimFloat.ltb nan 0) with false.
  change (PrimFloat.ltb 1 nan) with false. cbv iota.
  unfold backend_call. destruct (set_volume _ _) as [r b'].
  cbn [fst snd log append_log]. unfold set_volume_calls.
  rewrite omap_snoc. reflexivity.
Qed.
End Volume.


(** ** caps_changed *)

Section Caps.
Context {B : Type} `{!Backend B}.

(** With the same capability on both sides, the chained comparison is the
    conjunction of the two memberships: the middle test, a set against an
    integer, always holds. *)
Lemma chained_in_ne_in_eq (cap : Z) (orig_caps caps : gset Z) :
  chained_in_ne_in cap orig_caps cap caps = py_in cap orig_caps && py_in cap caps.
Proof. unfold chained_in_ne_in. simpl. rewrite andb_true_r. reflexivity. Qed.

Lemma assign_Can (method : string) (b : bool) (v : PropValue)
    (p : BasePlayer B) (e : Env) :
  assign_property method (Can_setter b) v (p, e)
  = (Ok tt, (p, append_log (PropertySet (_object_path p) method v) e)).
Proof. reflexivity. Qed.

Lemma caps_loop_property_sets (orig_caps caps : gset Z) (l : list (Z * string))
    (s : BasePlayer B * Env) :
  property_sets (log (snd (snd (for_each l (fun '(cap, method) =>
      if chained_in_ne_in cap orig_caps cap caps then
        assign_property method (Can_setter (py_in cap caps)) (PBool (py_in cap caps))
      else mret tt) s))))
  = property_sets (log (snd s)) ++ omap (caps_assignment orig_caps caps) l.
Proof.
  revert s. induction l as [|[cap method] l IH]; intros s.
  - simpl. rewrite app_nil_r. reflexivity.
  - cbn [for_each omap list_omap]. unfold mbind at 1, M_bind at 1.
    unfold caps_assignment at 1. cbn [fst snd].
    rewrite chained_in_ne_in_eq.
    destruct (py_in cap orig_caps) eqn:Ho; cbn [andb].
    + destruct (py_in cap caps) eqn:Hc.
      * destruct s as [p e]. rewrite assign_Can, IH. cbn [snd log append_log].
        unfold property_sets at 1. rewrite omap_snoc. cbn [app].
        rewrite <- app_assoc. reflexivity.
      * cbn [mret M_ret]. apply IH.
    + cbn [mret M_ret]. apply IH.
Qed.

(** What [caps_changed] republishes when the cache was populated: for each
    capability of [caps_map] that is in the old set and in the new set, the
    property with the value true; nothing for a capability that was gained
    or lost. *)
Lemma caps_changed_property_sets (s : BasePlayer B * Env)
    (orig_caps caps : gset Z) (b' : B) :
  _caps (fst s) = Some orig_caps ->
  get_caps (derived (fst s)) = (Ok caps, b') ->
  property_sets (log (snd (snd (caps_changed s))))
  = property_sets (log (snd s)) ++ omap (caps_assignment orig_caps caps) caps_map.
Proof.
  intros Hc Hg. destruct s as [p e]. cbn [fst snd] in *.
  unfold caps_changed. unfold mbind at 1, M_bind at 1. cbn [get_self fst snd].
  rewrite Hc.
  unfold mbind at 1, M_bind at 1. unfold backend_call at 1. cbn [fst snd]. rewrite Hg.
  unfold mbind at 1, M_bind at 1. cbn [modify_self fst snd].
  rewrite caps_loop_property_sets. cbn [snd log append_log].
  unfold property_sets at 1. rewrite omap_snoc. cbn. rewrite app_nil_r. reflexivity.
Qed.
End Caps.

(** C1.  The claim expects, from the old set [{PLAY, SEEK}] to the new set
    [{PLAY, NEXT}], the assignments [CanGoNext := true] and
    [CanSeek := false] and none for [CanPlay].  The code assigns
    [CanPlay := true] and nothing else: its test
    [cap in orig_caps != cap in self._caps] is a chained comparison, true
    exactly when the capability is in both sets. *)
Theorem caps_changed_play_seek_to_play_next :
  property_sets (log (snd (snd (caps_changed caps_state))))
  = [("CanPlay"%string, PBool true)].
Proof. vm_compute. reflexivity. Qed.

(** ** track_changed *)

Section Track.
Context {B : Type} `{!Backend B}.

Lemma announced_snoc_other (l : list Event) (ev : Event) :
  match ev with PropertySet _ _ (PDict _) => False | _ => True end ->
  announced_trackids (l ++ [ev]) = announced_trackids l.
Proof.
  intros H. unfold announced_trackids. rewrite omap_app. cbn.
  destruct ev as [| |? ? []| | | |]; try contradiction; cbn; apply app_nil_r.
Qed.

Lemma track_changed_step (metadata : option Metadata) (s : BasePlayer B * Env) :
  _current_trackid (fst (snd (track_changed metadata s))) = _current_trackid (fst s) + 1
  /\ (announced_trackids (log (snd (snd (track_changed metadata s))))
      = announced_trackids (log (snd s))
      \/ announced_trackids (log (snd (snd (track_changed metadata s))))
         = announced_trackids (log (snd s)) ++ [trackid_value (_current_trackid (fst s) + 1)]).
Proof.
  destruct s as [p e]. unfold track_changed. mred.
  cbn [set_current_trackid _timer].
  assert (forall (p1 : BasePlayer B) (e1 : Env) (md : Metadata),
            _current_trackid p1 = _current_trackid p + 1 ->
            announced_trackids (log e1) = announced_trackids (log e) ->
            let r := (_make_metadata md ≫= fun dct =>
                      assign_property "Metadata" (Metadata_setter dct) (PDict dct)) (p1, e1) in
            _current_trackid (fst (snd r)) = _current_trackid p + 1
            /\ announced_trackids (log (snd (snd r)))
               = announced_trackids (log e) ++ [trackid_value (_current_trackid p + 1)]) as Hfin.
  { intros p1 e1 md Hid Hann. cbv zeta. unfold _make_metadata, assign_property, Metadata_setter.
    mred. cbn [set_metadata _current_trackid _object_path log append_log].
    split; [exact Hid|].
    unfold announced_trackids in *. rewrite omap_app, Hann. cbn [omap list_omap String.eqb].
    change (String.eqb "Metadata" "Metadata") with true. cbv iota.
    rewrite lookup_insert_eq. unfold _get_current_trackid, trackid_value. rewrite Hid.
    reflexivity. }
  assert (forall (p1 : BasePlayer B) (e1 : Env),
            _current_trackid p1 = _current_trackid p + 1 ->
            announced_trackids (log e1) = announced_trackids (log e) ->
            let r := (match metadata with
                      | Some md => mret md
                      | None => backend_call CGetMetadata get_metadata
                      end ≫= fun md => _make_metadata md ≫= fun dct =>
                      assign_property "Metadata" (Metadata_setter dct) (PDict dct)) (p1, e1) in
            _current_trackid (fst (snd r)) = _current_trackid p + 1
            /\ (announced_trackids (log (snd (snd r))) = announced_trackids (log e)
                \/ announced_trackids (log (snd (snd r)))
                   = announced_trackids (log e) ++ [trackid_value (_current_trackid p + 1)])) as Hmd.
  { intros p1 e1 Hid Hann. cbv zeta. bind_step. destruct metadata as [md|].
    - cbn [mret M_ret]. destruct (Hfin p1 e1 md Hid Hann) as [H1 H2]. split; auto.
    - unfold backend_call. cbn [fst snd].
      destruct (get_metadata (derived p1)) as [[md|ex] b1].
      + edestruct (Hfin (set_derived b1 p1)) as [H1 H2]; [exact Hid| |split; [exact H1|right; exact H2]].
        cbn [log append_log]. rewrite announced_snoc_other by exact I. exact Hann.
      + cbn [fst snd set_derived _current_trackid log append_log].
        rewrite announced_snoc_other by exact I. auto. }
  cbn [fst snd].
  destruct (_timer p) as [tm|] eqn:Htm.
  - mred. unfold backend_call. cbn [fst snd].
    destruct (get_position _) as [[pos|ex] b1].
    + unfold timer_set_time. mred. cbn [set_derived set_current_trackid _timer]. rewrite Htm. mred.
      apply Hmd; [reflexivity|].
      cbn [log append_log]. rewrite announced_snoc_other by exact I. reflexivity.
    + cbn [fst snd set_derived _current_trackid log append_log].
      rewrite announced_snoc_other by exact I. auto.
  - mred. apply Hmd; reflexivity.
Qed.

Lemma other_ops_preserve_track (o : PlayerOp) :
  match o with OpTrackChanged _ => False | _ => True end ->
  preserves obs_track (player_op o).
Proof.
  unfold obs_track.
  destruct o; intros Ho; try contradiction; cbn [player_op];
    unfold Seek, SetPosition, Position, Volume_dbus_setter, status_changed, caps_changed,
      position_changed, disconnect, call_cb, _player_lost_cb,
      assign_property, Can_setter, PlaybackStatus_setter,
      _get_cached_position, _setup_timer, _get_cached_status, _setup_timer_status,
      timer_set_time, timer_time;
    frame.
Qed.

Lemma StronglySorted_lt_NoDup (ks : list Z) : StronglySorted Z.lt ks -> NoDup ks.
Proof.
  induction 1 as [|k ks Hs IH Hk]; constructor; [|exact IH].
  intros Hin. rewrite Forall_forall in Hk. specialize (Hk k Hin). lia.
Qed.

#[local] Instance trackid_value_inj : Inj eq eq trackid_value.
Proof.
  intros a b Hab. unfold trackid_value in Hab. injection Hab as Hab.
  apply (inj pretty). exact Hab.
Qed.

Lemma player_run_track (ops : list PlayerOp) (s : BasePlayer B * Env) :
  _current_trackid (fst (player_run ops s)) = _current_trackid (fst s) + count_track_changed ops
  /\ exists ks : list Z,
       announced_trackids (log (snd (player_run ops s)))
       = announced_trackids (log (snd s)) ++ map trackid_value ks
       /\ StronglySorted Z.lt ks
       /\ Forall (fun k => _current_trackid (fst s) < k
                            <= _current_trackid (fst s) + count_track_changed ops) ks.
Proof.
  revert s. induction ops as [|o ops IH]; intros s.
  - cbn. split; [lia|]. exists []. rewrite app_nil_r. repeat split; constructor.
  - change (player_run (o :: ops) s) with (player_run ops (snd (player_op o s))).
    destruct (IH (snd (player_op o s))) as (Hid & ks & Hann & Hsort & Hrange).
    assert (0 <= count_track_changed ops) as Hnn.
    { clear. induction ops as [|[] ops IH]; cbn [count_track_changed]; lia. }
    destruct o as [| | | |md| | | |].
    5:{ cbn [player_op] in *.
        destruct (track_changed_step md s) as [Hstep [Hsame|Hnew]];
          cbn [count_track_changed]; rewrite Hid, Hstep; (split; [lia|]).
        - exists ks. rewrite Hann, Hsame. split; [reflexivity|]. split; [exact Hsort|].
          eapply Forall_impl; [exact Hrange|]. cbn beta. intros k. rewrite Hstep. lia.
        - exists ((_current_trackid (fst s) + 1) :: ks).
          rewrite Hann, Hnew, <- app_assoc. split; [reflexivity|].
          split.
          + constructor; [exact Hsort|].
            eapply Forall_impl; [exact Hrange|]. cbn beta. intros k. rewrite Hstep. lia.
          + constructor; [lia|].
            eapply Forall_impl; [exact Hrange|]. cbn beta. intros k. rewrite Hstep. lia. }
    all: match goal with
         | |- context [player_op ?o] =>
             pose proof (other_ops_preserve_track o I s) as Hpres
         end;
      unfold obs_track in Hpres; injection Hpres as Hp1 Hp2;
      cbn [player_op] in *;
      cbn [count_track_changed]; rewrite Hid, Hp1; (split; [reflexivity|]);
      exists ks; rewrite Hann, Hp2; split; [reflexivity|]; split; [exact Hsort|];
      rewrite Hp1 in Hrange; exact Hrange.
Qed.
(** C6.  Every [track_changed] call adds exactly 1 to the track id, whether
    it returns or raises.  Over any run of calls on a session the counter
    grows by the number of [track_changed] calls and by nothing else, and the
    ids announced during the run are those of a strictly increasing sequence
    of counter values above the value at the start: no two are equal. *)
Theorem track_changed_trackid :
  (forall (metadata : option Metadata) (s : BasePlayer B * Env),
     _current_trackid (fst (snd (track_changed metadata s)))
     = _current_trackid (fst s) + 1)
  /\ (forall (ops : list PlayerOp) (s : BasePlayer B * Env),
        _current_trackid (fst (player_run ops s))
        = _current_trackid (fst s) + count_track_changed ops
        /\ exists ks : list Z,
             announced_trackids (log (snd (player_run ops s)))
             = announced_trackids (log (snd s)) ++ map trackid_value ks
             /\ StronglySorted Z.lt ks
             /\ Forall (fun k => _current_trackid (fst s) < k
                                  <= _current_trackid (fst s) + count_track_changed ops) ks
             /\ NoDup (map trackid_value ks)).
Proof.
  split.
  - intros metadata s. apply track_changed_step.
  - intros ops s. destruct (player_run_track ops s) as (Hid & ks & Hann & Hsort & Hrange).
    split; [exact Hid|]. exists ks. repeat split; try assumption.
    apply (NoDup_fmap_2 trackid_value). apply StronglySorted_lt_NoDup. exact Hsort.
Qed.
End Track.



(** ** disconnect *)

Section Disconnect.
Context {B : Type} `{!Backend B}.

Lemma disconnect_disconnected (s : BasePlayer B * Env) :
  _connected (fst s) = false -> disconnect s = (Ok tt, s).
Proof.
  intros H. destruct s as [p e]. unfold disconnect. mred.
  cbn [fst] in H. rewrite H. reflexivity.
Qed.

Lemma disconnect_connected (s : BasePlayer B * Env) :
  _connected (fst s) = true ->
  _connected (fst (snd (disconnect s))) = false
  /\ removals (log (snd (snd (disconnect s))))
     = removals (log (snd s)) ++ [_object_path (fst s)]
  /\ cb_calls (log (snd (snd (disconnect s))))
     = cb_calls (log (snd s))
         ++ match _disconnect_cb (fst s) with
            | Some _ => [_object_path (fst s)]
            | None => []
            end.
Proof.
  intros H. destruct s as [p e]. cbn [fst snd] in *.
  unfold disconnect. mred. rewrite H. mred.
  destruct (_disconnect_cb p) as [[]|].
  - unfold call_cb, _player_lost_cb. mred.
    cbn [set_connected _name _object_path append_log proxy _connected_players].
    destruct (_connected_players (proxy e) !! _name p); mred;
      cbn [fst snd set_connected _connected log append_log set_connected_players];
      unfold removals, cb_calls; rewrite ?omap_app; cbn; rewrite ?app_nil_r;
      repeat split; reflexivity.
  - mred. cbn [fst snd set_connected _connected log append_log].
    unfold removals, cb_calls; rewrite ?omap_app; cbn; rewrite ?app_nil_r;
      repeat split; reflexivity.
Qed.

(** The state in which [disconnect] leaves a connected session: the flag is
    cleared, the object is unpublished, and the registered callback, which is
    the proxy's [_player_lost_cb], has run once on the session so marked. *)
Lemma disconnect_connected_state (p : BasePlayer B) (e : Env) :
  _connected p = true ->
  let p1 := set_connected false p in
  let e1 := append_log (RemovedFromConnection (_object_path p)) e in
  disconnect (p, e)
  = match _disconnect_cb p with
    | Some player_lost_cb =>
        _player_lost_cb (p1, append_log (DisconnectCbCalled (_object_path p)) e1)
    | None => (Ok tt, (p1, e1))
    end.
Proof.
  intros H. cbv zeta. unfold disconnect. mred. rewrite H. mred.
  destruct (_disconnect_cb p) as [[]|]; [|reflexivity].
  unfold call_cb. mred. reflexivity.
Qed.

Lemma _player_lost_cb_effect (p : BasePlayer B) (e : Env) :
  let s1 := snd (_player_lost_cb (p, e)) in
  fst (_player_lost_cb (p, e)) = Ok tt
  /\ fst s1 = p
  /\ _connected_players (proxy (snd s1)) = delete (_name p) (_connected_players (proxy e))
  /\ (forall n : string, n <> _name p ->
        _connected_players (proxy (snd s1)) !! n = _connected_players (proxy e) !! n)
  /\ player_lost_signals (log (snd s1))
     = player_lost_signals (log e)
         ++ match _connected_players (proxy e) !! _name p with
            | Some _ => [_name p]
            | None => []
            end
  /\ removals (log (snd s1)) = removals (log e)
  /\ cb_calls (log (snd s1)) = cb_calls (log e).
Proof.
  cbv zeta. unfold _player_lost_cb. mred.
  destruct (_connected_players (proxy e) !! _name p) as [v|] eqn:Hl; mred;
    cbn [fst snd log append_log proxy set_connected_players _connected_players].
  - split; [reflexivity|]. split; [reflexivity|]. split; [reflexivity|].
    split; [intros n Hn; apply lookup_delete_ne; congruence|].
    unfold player_lost_signals, removals, cb_calls. rewrite !omap_app. cbn.
    rewrite !app_nil_r. auto.
  - split; [reflexivity|]. split; [reflexivity|].
    split; [symmetry; apply delete_id; exact Hl|].
    rewrite app_nil_r. auto.
Qed.

(** C7.  After [disconnect] the connection flag is false and a further
    [disconnect] returns without changing anything.  On a connected session
    the call clears the flag and changes nothing else of the player object,
    unpublishes the object once and, when a callback is registered, invokes
    it once: the state left is the one a single run of the proxy's
    [_player_lost_cb] gives on the session so marked, so that the name of the
    session is no longer bound in the registry, every other name is bound as
    before, and [PlayerLost] is emitted once if the name was bound and not at
    all otherwise.  With no callback registered the proxy is left as it was
    and the log gains the unpublication only.  On a disconnected session the
    call is a no-op. *)
Theorem disconnect_idempotent (s : BasePlayer B * Env) :
  let s1 := snd (disconnect s) in
  _connected (fst s1) = false
  /\ disconnect s1 = (Ok tt, s1)
  /\ (_connected (fst s) = true ->
        removals (log (snd s1)) = removals (log (snd s)) ++ [_object_path (fst s)]
        /\ cb_calls (log (snd s1))
           = cb_calls (log (snd s))
               ++ match _disconnect_cb (fst s) with
                  | Some _ => [_object_path (fst s)]
                  | None => []
                  end)
  /\ (_connected (fst s) = false -> disconnect s = (Ok tt, s))
  /\ (_connected (fst s) = true ->
        let path := _object_path (fst s) in
        let name := _name (fst s) in
        let registry := _connected_players (proxy (snd s)) in
        fst (disconnect s) = Ok tt
        /\ fst s1 = set_connected false (fst s)
        /\ match _disconnect_cb (fst s) with
           | Some player_lost_cb =>
               disconnect s
               = _player_lost_cb
                   (set_connected false (fst s),
                    append_log (DisconnectCbCalled path)
                      (append_log (RemovedFromConnection path) (snd s)))
               /\ _connected_players (proxy (snd s1)) = delete name registry
               /\ _connected_players (proxy (snd s1)) !! name = None
               /\ (forall n : string, n <> name ->
                     _connected_players (proxy (snd s1)) !! n = registry !! n)
               /\ player_lost_signals (log (snd s1))
                  = player_lost_signals (log (snd s))
                      ++ match registry !! name with
                         | Some _ => [name]
                         | None => []
                         end
           | None =>
               snd s1 = append_log (RemovedFromConnection path) (snd s)
           end).
Proof.
  cbv zeta.
  assert (_connected (fst (snd (disconnect s))) = false) as Hd.
  { destruct (_connected (fst s)) eqn:Hc.
    - apply (disconnect_connected s Hc).
    - rewrite (disconnect_disconnected s Hc). exact Hc. }
  split; [exact Hd|]. split; [apply disconnect_disconnected; exact Hd|].
  split; [intros Hc; apply (disconnect_connected s Hc)|].
  split; [apply disconnect_disconnected|].
  intros Hc. destruct s as [p e]. cbn [fst snd] in *.
  rewrite (disconnect_connected_state p e Hc).
  destruct (_disconnect_cb p) as [[]|]; [|cbn [fst snd]; auto].
  set (e2 := append_log (DisconnectCbCalled (_object_path p))
               (append_log (RemovedFromConnection (_object_path p)) e)).
  destruct (_player_lost_cb_effect (set_connected false p) e2)
    as (Hr & Hp & Hmap & Hother & Hlost & _).
  cbn [set_connected _name] in Hmap, Hother, Hlost.
  split; [exact Hr|]. split; [exact Hp|]. split; [reflexivity|].
  split; [exact Hmap|].
  split; [rewrite Hmap; apply lookup_delete_eq|].
  split; [exact Hother|].
  rewrite Hlost. subst e2. cbn [log append_log proxy].
  unfold player_lost_signals. rewrite !omap_app. cbn. rewrite !app_nil_r. reflexivity.
Qed.
End Disconnect.

(** ** Position *)

Section Position.
Context {B : Type} `{!Backend B}.

Lemma Position_cached (s : BasePlayer B * Env) (tm : Timer.t) :
  _timer (fst s) = Some tm ->
  Position s = (Ok (Timer.time tm (now (snd s))), s).
Proof.
  intros H. destruct s as [p e]. cbn [fst snd] in *.
  unfold Position, _get_cached_position, timer_time, mbind, M_bind.
  cbn [get_self fst snd]. rewrite H. cbn [mret M_ret get_self get_env fst snd].
  rewrite H. reflexivity.
Qed.

Lemma status_map_state (st : STATUS.t) (tm : Timer.t) (t : Z) :
  Timer.state (status_map st tm t) = timer_state_of st.
Proof. destruct st; reflexivity. Qed.

Lemma _get_cached_status_hit (p : BasePlayer B) (e : Env) (st : STATUS.t) :
  _status p = Some st -> _get_cached_status (p, e) = (Ok st, (p, e)).
Proof.
  intros H. unfold _get_cached_status, mbind, M_bind. cbn [get_self fst snd].
  rewrite H. reflexivity.
Qed.

Lemma _get_cached_status_ok (s s1 : BasePlayer B * Env) (st : STATUS.t) :
  _get_cached_status s = (Ok st, s1) ->
  _status (fst s1) = Some st
  /\ _timer (fst s1) = _timer (fst s)
  /\ _object_path (fst s1) = _object_path (fst s)
  /\ now (snd s1) = now (snd s)
  /\ get_position_calls (log (snd s1)) = get_position_calls (log (snd s)).
Proof.
  destruct s as [p e]. unfold _get_cached_status, mbind, M_bind.
  cbn [get_self fst snd]. destruct (_status p) as [st0|] eqn:Hst.
  - intros [= <- <-]. cbn [fst snd]. auto.
  - unfold backend_call. cbn [fst snd].
    destruct (get_status (derived p)) as [[st1|ex] b1]; [|discriminate].
    cbn [modify_self mret M_ret fst snd]. intros [= <- <-]. cbn.
    unfold get_position_calls. rewrite omap_app. cbn. rewrite app_nil_r. auto.
Qed.

(** C9, as amended.  When the first read of the position returns (the
    session has no Timer yet), the Timer then exists, the playback status is
    cached and the run state of the Timer matches it; the value read is the
    Timer's; the backend's [get_position] was queried exactly once if the
    status is not STOPPED, in which case the value read is the backend's
    answer and the Timer is the new Timer, switched to the status and set to
    that answer; it was not queried at all if the status is STOPPED, in
    which case the Timer is left at its initial value, a new stopped Timer
    at 0, and the value read is 0.  From then on a read returns the Timer's
    extrapolated value, whatever the clock shows, and changes nothing: no
    backend query is made. *)
Theorem Position_first_read (s s' : BasePlayer B * Env) (v : Z) :
  _timer (fst s) = None ->
  Position s = (Ok v, s') ->
  exists (tm : Timer.t) (st : STATUS.t),
    _timer (fst s') = Some tm
    /\ _status (fst s') = Some st
    /\ Timer.state tm = timer_state_of st
    /\ v = Timer.time tm (now (snd s'))
    /\ get_position_calls (log (snd s'))
       = get_position_calls (log (snd s))
           ++ (if STATUS.eqb st STATUS.STOPPED then [] else [_object_path (fst s)])
    /\ (STATUS.eqb st STATUS.STOPPED = false ->
          exists b0 : B, get_position b0 = (Ok v, derived (fst s')))
    /\ (forall e2 : Env,
          Position (fst s', e2) = (Ok (Timer.time tm (now e2)), (fst s', e2)))
    /\ now (snd s') = now (snd s)
    /\ (if STATUS.eqb st STATUS.STOPPED then
          v = 0
          /\ tm = Timer.new (now (snd s))
          /\ tm = Timer.stop (Timer.new (now (snd s))) (now (snd s))
        else
          tm = Timer.set_time (status_map st (Timer.new (now (snd s))) (now (snd s)))
                 v (now (snd s))).
Proof.
  intros Ht. destruct s as [p e]. cbn [fst snd] in *.
  unfold Position at 1, _get_cached_position. mred. rewrite Ht.
  unfold _setup_timer. mred. rewrite Ht. mred.
  destruct (_get_cached_status (set_timer (Some (Timer.new (now e))) p, e))
    as [[st|ex] [p1 e1]] eqn:Hs; [|discriminate].
  apply _get_cached_status_ok in Hs. cbn [fst snd set_timer _timer _object_path] in Hs.
  destruct Hs as (Hst & Htm & Hpath & Hnow & Hcalls).
  unfold _setup_timer_status. mred. rewrite Htm. mred.
  rewrite (_get_cached_status_hit _ _ st) by exact Hst.
  destruct (STATUS.eqb st STATUS.STOPPED) eqn:Hstop; cbn [negb].
  - mred. unfold timer_time. mred. cbn [set_timer _timer]. mred.
    intros [= <- <-]. eexists _, st. cbn [fst snd set_timer _timer _status].
    split; [reflexivity|]. split; [exact Hst|]. split; [apply status_map_state|].
    split; [reflexivity|]. split; [rewrite Hstop, app_nil_r; exact Hcalls|].
    split; [intros Hf; rewrite Hf in Hstop; discriminate Hstop|].
    split; [intros e2; apply Position_cached; reflexivity|].
    split; [exact Hnow|].
    rewrite Hstop, Hnow. destruct st; try discriminate Hstop.
    cbn [status_map]. repeat split.
  - mred. unfold backend_call. cbn [fst snd derived set_timer].
    destruct (get_position (derived p1)) as [[pos|ex] b1] eqn:Hg; [|discriminate].
    unfold timer_set_time, timer_time. mred. cbn [set_timer set_derived _timer]. mred.
    cbn [set_timer set_derived _timer]. mred.
    intros [= <- <-]. eexists _, st.
    cbn [fst snd set_timer set_derived _timer _status derived now log append_log].
    split; [reflexivity|]. split; [exact Hst|].
    split; [cbn [Timer.set_time Timer.state]; apply status_map_state|].
    assert (Timer.time (Timer.set_time (status_map st (Timer.new (now e)) (now e1)) pos
                          (now e1)) (now e1) = pos) as Hv.
    { unfold Timer.time, Timer.set_time. cbn [Timer.state Timer.base Timer.mark].
      destruct (Timer.state _); lia. }
    split; [reflexivity|].
    split.
    { rewrite Hstop. unfold get_position_calls in *.
      rewrite omap_app, Hcalls, Hpath. reflexivity. }
    split.
    { intros _. exists (derived p1). rewrite Hg, Hv. reflexivity. }
    split; [intros e2; apply Position_cached; reflexivity|].
    split; [exact Hnow|].
    rewrite Hstop, Hv, Hnow. reflexivity.
Qed.
End Position.

(** C9 as first stated fails: with the cached status STOPPED the first read
    makes no [get_position] query, and returns 0 while the backend is at
    4200 ms. *)
Lemma Position_stopped_no_query :
  fst (Position (fresh_state STATUS.STOPPED)) = Ok 0
  /\ get_position_calls (log (snd (snd (Position (fresh_state STATUS.STOPPED))))) = [].
Proof. split; reflexivity. Qed.

(** With the cached status PLAYING the first read queries the backend once
    and returns its 4200 ms; with the cached status STOPPED it returns the 0
    of the new Timer. *)
Lemma Position_first_read_witness :
  (exists (tm : Timer.t) (st : STATUS.t),
     let s := fresh_state STATUS.PLAYING in
     let s' := snd (Position s) in
     _timer (fst s') = Some tm
     /\ _status (fst s') = Some st
     /\ Timer.state tm = timer_state_of st
     /\ 4200 = Timer.time tm (now (snd s'))
     /\ get_position_calls (log (snd s'))
        = get_position_calls (log (snd s))
            ++ (if STATUS.eqb st STATUS.STOPPED then [] else [_object_path (fst s)])
     /\ (STATUS.eqb st STATUS.STOPPED = false ->
           exists b0 : Simple, get_position b0 = (Ok 4200, derived (fst s')))
     /\ (forall e2 : Env,
           Position (fst s', e2) = (Ok (Timer.time tm (now e2)), (fst s', e2)))
     /\ now (snd s') = now (snd s)
     /\ (if STATUS.eqb st STATUS.STOPPED then
           4200 = 0
           /\ tm = Timer.new (now (snd s))
           /\ tm = Timer.stop (Timer.new (now (snd s))) (now (snd s))
         else
           tm = Timer.set_time (status_map st (Timer.new (now (snd s))) (now (snd s)))
                  4200 (now (snd s))))
  /\ (exists (tm : Timer.t) (st : STATUS.t),
     let s := fresh_state STATUS.STOPPED in
     let s' := snd (Position s) in
     _timer (fst s') = Some tm
     /\ _status (fst s') = Some st
     /\ Timer.state tm = timer_state_of st
     /\ 0 = Timer.time tm (now (snd s'))
     /\ get_position_calls (log (snd s'))
        = get_position_calls (log (snd s))
            ++ (if STATUS.eqb st STATUS.STOPPED then [] else [_object_path (fst s)])
     /\ (STATUS.eqb st STATUS.STOPPED = false ->
           exists b0 : Simple, get_position b0 = (Ok 0, derived (fst s')))
     /\ (forall e2 : Env,
           Position (fst s', e2) = (Ok (Timer.time tm (now e2)), (fst s', e2)))
     /\ now (snd s') = now (snd s)
     /\ (if STATUS.eqb st STATUS.STOPPED then
           0 = 0
           /\ tm = Timer.new (now (snd s))
           /\ tm = Timer.stop (Timer.new (now (snd s))) (now (snd s))
         else
           tm = Timer.set_time (status_map st (Timer.new (now (snd s))) (now (snd s)))
                  0 (now (snd s)))).
Proof.
  split.
  - exact (Position_first_read (fresh_state STATUS.PLAYING)
             (snd (Position (fresh_state STATUS.PLAYING))) 4200 eq_refl eq_refl).
  - exact (Position_first_read (fresh_state STATUS.STOPPED)
             (snd (Position (fresh_state STATUS.STOPPED))) 0 eq_refl eq_refl).
Defined.

(** ** The registry *)

Ltac xred :=
  repeat first
    [ bind_step
    | progress cbn [get_world modify_world_env get_self get_env modify_self modify_env
                    emit mret M_ret raise fst snd] ].

Lemma lookup_snoc_length {A} (l : list A) (x : A) : (l ++ [x]) !! length l = Some x.
Proof. apply list_lookup_middle. reflexivity. Qed.

Lemma insert_snoc_length {A} (l : list A) (x y : A) :
  <[length l := y]> (l ++ [x]) = l ++ [y].
Proof.
  rewrite insert_app_r_alt by lia. rewrite Nat.sub_diag. reflexivity.
Qed.

Section Proxy.
Context {D B : Type} `{!Backend B} `{!Driver D B}.
Variable PREFIX : string.

Lemma ConnectPlayer_hit (w : World D B) (name : string) (r : nat) (p : BasePlayer B) :
  cp_map w !! name = Some (Some r) ->
  players w !! r = Some p ->
  ConnectPlayer PREFIX name w = (Ok (_object_path p), w).
Proof.
  unfold cp_map. intros Hm Hp. unfold ConnectPlayer, setdefault_None. xred. rewrite Hm. xred.
  unfold on_player. rewrite Hp. xred. rewrite list_insert_id by exact Hp.
  destruct w; reflexivity.
Qed.

Lemma ConnectPlayer_miss (w : World D B) (name : string) :
  (forall r, cp_map w !! name <> Some (Some r)) ->
  ConnectPlayer PREFIX name w
  = let e0 := append_log (DriverCall name)
                (set_connected_players (<[name := None]> (cp_map w)) (env w)) in
    let (o, d') := do_connect_player name (driver w) in
    match o with
    | DriverRaises (TypeError msg) =>
        (Raise (BaseError (cannot_instantiate (proxy (env w)) name) (Some (TypeError msg))),
         {| players := players w; driver := d'; env := e0 |})
    | DriverRaises ex => (Raise ex, {| players := players w; driver := d'; env := e0 |})
    | DriverReturnsNone =>
        (Raise (ConnectPlayerError ["%s cannot be connected"; name]),
         {| players := players w; driver := d'; env := e0 |})
    | DriverCreates n b c =>
        let p := set_connected c (BasePlayer_init PREFIX (proxy (env w)) n b) in
        if c then
          (Ok (_object_path p),
           {| players := players w ++ [set_disconnect_cb_field (Some player_lost_cb) p];
              driver := d';
              env := set_connected_players
                       (<[name := Some (length (players w))]> (<[name := None]> (cp_map w)))
                       e0 |})
        else
          (Raise (ConnectPlayerError ["%s cannot be connected"; name]),
           {| players := players w ++ [p]; driver := d'; env := e0 |})
    end.
Proof.
  unfold cp_map. intros Hm.
  assert (exists w0 : World D B,
            setdefault_None name w = (Ok None, w0)
            /\ players w0 = players w /\ driver w0 = driver w
            /\ env w0 = set_connected_players
                          (<[name := None]> (_connected_players (proxy (env w)))) (env w))
    as (w0 & Hsd & Hp0 & Hd0 & He0).
  { unfold setdefault_None. xred.
    destruct (_connected_players (proxy (env w)) !! name) as [[r|]|] eqn:Hl.
    - exfalso. apply (Hm r). reflexivity.
    - xred. exists w. repeat split; try reflexivity.
      rewrite insert_id by exact Hl. destruct w as [ps d [[c n m] t l]]. reflexivity.
    - xred. eexists. repeat split; reflexivity. }
  unfold ConnectPlayer. bind_step. rewrite Hsd. xred.
  unfold except_TypeError, call_do_connect_player. rewrite Hd0, Hp0, He0.
  cbv zeta.
  destruct (do_connect_player name (driver w)) as [o d'].
  destruct o as [ex| |n b c].
  - destruct ex; reflexivity.
  - reflexivity.
  - xred. unfold on_player at 1. cbn [players]. rewrite lookup_snoc_length. xred.
    cbn [set_connected _connected]. rewrite insert_snoc_length.
    destruct c.
    + xred. unfold on_player. cbn [players env]. rewrite lookup_snoc_length.
      unfold set_disconnect_cb. xred. rewrite insert_snoc_length. xred.
      cbn [players env]. rewrite lookup_snoc_length. xred. rewrite insert_snoc_length.
      reflexivity.
    + reflexivity.
Qed.

Lemma count_insert {A} (f : A -> bool) (ps : list A) (r : nat) (p p' : A) :
  ps !! r = Some p ->
  (length (List.filter f (<[r := p']> ps)) + Nat.b2n (f p)
   = length (List.filter f ps) + Nat.b2n (f p'))%nat.
Proof.
  revert r. induction ps as [|q ps IH]; intros [|r] Hl; try discriminate.
  - injection Hl as ->. cbn. destruct (f p), (f p'); cbn; lia.
  - cbn in Hl. specialize (IH r Hl).
    change (<[S r := p']> (q :: ps)) with (q :: <[r := p']> ps).
    cbn [List.filter]. destruct (f q); cbn [length]; lia.
Qed.

Lemma count_snoc {A} (f : A -> bool) (ps : list A) (p : A) :
  length (List.filter f (ps ++ [p])) = (length (List.filter f ps) + Nat.b2n (f p))%nat.
Proof.
  rewrite List.filter_app, length_app. cbn. destruct (f p); reflexivity.
Qed.

Lemma disconnect_eq (p : BasePlayer B) (e : Env) :
  disconnect (p, e)
  = (Ok tt,
     if _connected p then
       (set_connected false p,
        match _disconnect_cb p with
        | Some _ =>
            let e2 := append_log (DisconnectCbCalled (_object_path p))
                        (append_log (RemovedFromConnection (_object_path p)) e) in
            match _connected_players (proxy e) !! _name p with
            | Some _ =>
                append_log (PlayerLost (_name p))
                  (set_connected_players (delete (_name p) (_connected_players (proxy e))) e2)
            | None => e2
            end
        | None => append_log (RemovedFromConnection (_object_path p)) e
        end)
     else (p, e)).
Proof.
  unfold disconnect. mred. destruct (_connected p); [|reflexivity]. mred.
  destruct (_disconnect_cb p) as [[]|]; [|reflexivity].
  unfold call_cb, _player_lost_cb. mred.
  cbn [set_connected _name _object_path append_log proxy _connected_players].
  destruct (_connected_players (proxy e) !! _name p); reflexivity.
Qed.

Lemma other_ops_preserve_registry (o : PlayerOp) :
  match o with OpDisconnect => False | _ => True end ->
  preserves obs_registry (player_op o).
Proof.
  unfold obs_registry.
  destruct o; intros Ho; try contradiction; cbn [player_op];
    unfold Seek, SetPosition, Position, Volume_dbus_setter, track_changed, status_changed,
      caps_changed, position_changed, _make_metadata,
      assign_property, Can_setter, PlaybackStatus_setter, Metadata_setter,
      _get_cached_position, _setup_timer, _get_cached_status, _setup_timer_status,
      timer_set_time, timer_time;
    frame.
Qed.

Lemma miss_other_name (w : World D B) (name : string) (r : nat) (p : BasePlayer B) :
  registry_inv w ->
  (forall r0, cp_map w !! name <> Some (Some r0)) ->
  players w !! r = Some p -> _connected p = true -> registered p = true ->
  _name p <> name.
Proof.
  intros Hinv Hmiss Hp Hc Hr Heq.
  apply (Hmiss r). rewrite <- Heq. apply (inv_registered w Hinv r p Hp Hc Hr).
Qed.

(** The registry after a failed attempt: the key is bound to [None], and the
    driver may have left a player that is not connected. *)
Lemma inv_connect_failed (w : World D B) (name : string) (d' : D) (e' : Env)
    (ps' extra : list (BasePlayer B)) :
  ps' = players w ++ extra ->
  registry_inv w ->
  (forall r0, cp_map w !! name <> Some (Some r0)) ->
  _connected_players (proxy e') = <[name := None]> (cp_map w) ->
  player_lost_signals (log e') = player_lost_signals (log (env w)) ->
  Forall (fun p => _connected p = false /\ registered p = false) extra ->
  registry_inv {| players := ps'; driver := d'; env := e' |}.
Proof.
  intros -> Hinv Hmiss Hmap Hlog Hextra. split; unfold cp_map; cbn [players env].
  - intros n r. rewrite Hmap. destruct (decide (name = n)) as [<-|Hne].
    + rewrite lookup_insert_eq. discriminate.
    + rewrite lookup_insert_ne by exact Hne. intros Hl.
      destruct (inv_live w Hinv n r Hl) as (p & Hp & Hrest).
      exists p. split; [|exact Hrest]. apply lookup_app_l_Some. exact Hp.
  - intros r p Hp Hc Hr. rewrite Hmap.
    apply lookup_app_Some in Hp as [Hp|[_ Hp]].
    + rewrite lookup_insert_ne.
      * apply (inv_registered w Hinv r p Hp Hc Hr).
      * intros Heq. symmetry in Heq. revert Heq.
        apply (miss_other_name w name r p Hinv Hmiss Hp Hc Hr).
    + apply list_elem_of_lookup_2 in Hp. rewrite Forall_forall in Hextra.
      destruct (Hextra p Hp) as [Hf _]. congruence.
  - intros n. unfold lost_signals, lost_sessions. rewrite Hlog.
    rewrite List.filter_app, length_app.
    replace (length (List.filter (lost n) extra)) with 0%nat.
    + rewrite Nat.add_0_r. apply (inv_lost w Hinv n).
    + clear -Hextra. induction Hextra as [|p extra [_ Hr] _ IH]; [reflexivity|].
      cbn [List.filter]. unfold lost at 1. rewrite Hr, andb_false_r. exact IH.
Qed.

Lemma inv_connect_created (w : World D B) (name : string) (d' : D) (e' : Env)
    (p : BasePlayer B) :
  registry_inv w ->
  (forall r0, cp_map w !! name <> Some (Some r0)) ->
  _connected_players (proxy e')
  = <[name := Some (length (players w))]> (<[name := None]> (cp_map w)) ->
  player_lost_signals (log e') = player_lost_signals (log (env w)) ->
  _connected p = true -> registered p = true -> _name p = name ->
  registry_inv {| players := players w ++ [p]; driver := d'; env := e' |}.
Proof.
  intros Hinv Hmiss Hmap Hlog Hc Hr Hn. split; unfold cp_map; cbn [players env].
  - intros n r. rewrite Hmap. destruct (decide (name = n)) as [<-|Hne].
    + rewrite lookup_insert_eq. intros [= <-]. exists p.
      rewrite lookup_snoc_length. auto.
    + rewrite !lookup_insert_ne by exact Hne. intros Hl.
      destruct (inv_live w Hinv n r Hl) as (q & Hq & Hrest).
      exists q. split; [|exact Hrest]. apply lookup_app_l_Some. exact Hq.
  - intros r q Hq Hqc Hqr. rewrite Hmap.
    apply lookup_app_Some in Hq as [Hq|[Hlen Hq]].
    + rewrite !lookup_insert_ne.
      * apply (inv_registered w Hinv r q Hq Hqc Hqr).
      * intros Heq. symmetry in Heq. revert Heq.
        apply (miss_other_name w name r q Hinv Hmiss Hq Hqc Hqr).
      * intros Heq. symmetry in Heq. revert Heq.
        apply (miss_other_name w name r q Hinv Hmiss Hq Hqc Hqr).
    + destruct (r - length (players w))%nat as [|k] eqn:Hk; [|destruct k; discriminate].
      injection Hq as <-. rewrite Hn, lookup_insert_eq. do 2 f_equal. lia.
  - intros n. unfold lost_signals, lost_sessions. rewrite Hlog, count_snoc.
    unfold lost at 2. rewrite Hc, andb_false_r. cbn [Nat.b2n]. rewrite Nat.add_0_r.
    apply (inv_lost w Hinv n).
Qed.

Lemma player_lost_signals_snoc_other (l : list Event) (ev : Event) :
  match ev with PlayerLost _ => False | _ => True end ->
  player_lost_signals (l ++ [ev]) = player_lost_signals l.
Proof.
  intros H. unfold player_lost_signals. rewrite omap_app.
  destruct ev; try contradiction; cbn; apply app_nil_r.
Qed.

Lemma inv_ConnectPlayer (w : World D B) (name : string) :
  names_as_requested D B -> registry_inv w ->
  registry_inv (snd (ConnectPlayer PREFIX name w)).
Proof.
  intros Hnames Hinv.
  assert ((exists r, cp_map w !! name = Some (Some r))
          \/ (forall r0, cp_map w !! name <> Some (Some r0))) as [[r Hm]|Hmiss].
  { destruct (cp_map w !! name) as [[r|]|]; [left; eauto|right; discriminate..]. }
  - destruct (inv_live w Hinv name r Hm) as (p & Hp & _).
    rewrite (ConnectPlayer_hit w name r p Hm Hp). exact Hinv.
  - rewrite (ConnectPlayer_miss w name Hmiss). cbv zeta.
    specialize (Hnames name (driver w)).
    destruct (do_connect_player name (driver w)) as [o d']. cbn [fst] in Hnames.
    assert (registry_inv
              {| players := players w; driver := d';
                 env := append_log (DriverCall name)
                          (set_connected_players (<[name := None]> (cp_map w)) (env w)) |})
      as Hfail.
    { apply (inv_connect_failed w name d' _ _ []);
        [symmetry; apply app_nil_r|exact Hinv|exact Hmiss|reflexivity| |constructor].
      cbn [log append_log set_connected_players].
      apply player_lost_signals_snoc_other; exact I. }
    destruct o as [ex| |n b c].
    + destruct ex; exact Hfail.
    + exact Hfail.
    + subst n. destruct c; cbn [snd].
      * apply (inv_connect_created w name);
          [exact Hinv|exact Hmiss|reflexivity| |reflexivity..].
        cbn [log append_log set_connected_players].
        apply player_lost_signals_snoc_other; exact I.
      * eapply (inv_connect_failed w name);
          [reflexivity|exact Hinv|exact Hmiss|reflexivity| |].
        -- cbn [log append_log set_connected_players].
           apply player_lost_signals_snoc_other; exact I.
        -- constructor; [split; reflexivity|constructor].
Qed.

Lemma inv_replace (w : World D B) (r : nat) (p p' : BasePlayer B) (e' : Env) :
  registry_inv w ->
  players w !! r = Some p ->
  _name p' = _name p -> _connected p' = _connected p ->
  _disconnect_cb p' = _disconnect_cb p ->
  _connected_players (proxy e') = cp_map w ->
  player_lost_signals (log e') = player_lost_signals (log (env w)) ->
  registry_inv {| players := <[r := p']> (players w); driver := driver w; env := e' |}.
Proof.
  intros Hinv Hp Hn Hc Hcb Hmap Hlog.
  assert (registered p' = registered p) as Hr by (unfold registered; rewrite Hcb; reflexivity).
  pose proof (lookup_lt_Some _ _ _ Hp) as Hlt.
  split; unfold cp_map; cbn [players env].
  - intros n r0. rewrite Hmap. intros Hl.
    destruct (inv_live w Hinv n r0 Hl) as (q & Hq & Hqc & Hqn & Hqr).
    destruct (decide (r = r0)) as [<-|Hne].
    + exists p'. rewrite list_lookup_insert_eq by exact Hlt.
      assert (q = p) as -> by congruence. rewrite Hc, Hn, Hr. auto.
    + exists q. rewrite list_lookup_insert_ne by exact Hne. auto.
  - intros r0 q Hq Hqc Hqr. rewrite Hmap.
    apply list_lookup_insert_Some in Hq as [(<- & <- & _)|(Hne & Hq)].
    + rewrite Hn. apply (inv_registered w Hinv r p Hp); congruence.
    + apply (inv_registered w Hinv r0 q Hq Hqc Hqr).
  - intros n. unfold lost_signals, lost_sessions. rewrite Hlog.
    pose proof (count_insert (lost n) (players w) r p p' Hp) as Hcount.
    assert (lost n p' = lost n p) as Hl by (unfold lost; rewrite Hn, Hr, Hc; reflexivity).
    rewrite Hl in Hcount.
    pose proof (inv_lost w Hinv n) as Hold. unfold lost_signals, lost_sessions in Hold.
    lia.
Qed.

Lemma inv_disconnect_unregistered (w : World D B) (r : nat) (p : BasePlayer B) (e' : Env) :
  registry_inv w ->
  players w !! r = Some p ->
  registered p = false ->
  _connected_players (proxy e') = cp_map w ->
  player_lost_signals (log e') = player_lost_signals (log (env w)) ->
  registry_inv {| players := <[r := set_connected false p]> (players w);
                  driver := driver w; env := e' |}.
Proof.
  intros Hinv Hp Hr Hmap Hlog.
  split; unfold cp_map; cbn [players env].
  - intros n r0. rewrite Hmap. intros Hl.
    destruct (inv_live w Hinv n r0 Hl) as (q & Hq & Hrest).
    exists q. split; [|exact Hrest]. rewrite list_lookup_insert_ne; [exact Hq|].
    intros <-. destruct Hrest as (_ & _ & Hqr). congruence.
  - intros r0 q Hq Hqc Hqr. rewrite Hmap.
    apply list_lookup_insert_Some in Hq as [(<- & <- & _)|(Hne & Hq)].
    + discriminate Hqc.
    + apply (inv_registered w Hinv r0 q Hq Hqc Hqr).
  - intros n. unfold lost_signals, lost_sessions. rewrite Hlog.
    pose proof (count_insert (lost n) (players w) r p (set_connected false p) Hp) as Hcount.
    assert (lost n p = false) as Hl1 by (unfold lost; rewrite Hr, andb_false_r; reflexivity).
    assert (lost n (set_connected false p) = false) as Hl2.
    { unfold lost, registered in *. cbn [set_connected _disconnect_cb _name _connected].
      rewrite Hr, andb_false_r. reflexivity. }
    rewrite Hl1, Hl2 in Hcount.
    pose proof (inv_lost w Hinv n) as Hold. unfold lost_signals, lost_sessions in Hold.
    cbn [Nat.b2n] in Hcount. lia.
Qed.

Lemma inv_disconnect_registered (w : World D B) (r : nat) (p : BasePlayer B) (e' : Env) :
  registry_inv w ->
  players w !! r = Some p ->
  _connected p = true -> registered p = true ->
  _connected_players (proxy e') = delete (_name p) (cp_map w) ->
  player_lost_signals (log e') = player_lost_signals (log (env w)) ++ [_name p] ->
  registry_inv {| players := <[r := set_connected false p]> (players w);
                  driver := driver w; env := e' |}.
Proof.
  intros Hinv Hp Hc Hr Hmap Hlog.
  pose proof (inv_registered w Hinv r p Hp Hc Hr) as Hreg.
  split; unfold cp_map; cbn [players env].
  - intros n r0. rewrite Hmap. intros Hl.
    apply lookup_delete_Some in Hl as [Hne Hl].
    destruct (inv_live w Hinv n r0 Hl) as (q & Hq & Hrest).
    exists q. split; [|exact Hrest]. rewrite list_lookup_insert_ne; [exact Hq|].
    intros <-. destruct Hrest as (_ & Hqn & _). congruence.
  - intros r0 q Hq Hqc Hqr. rewrite Hmap.
    apply list_lookup_insert_Some in Hq as [(<- & <- & _)|(Hne & Hq)].
    + discriminate Hqc.
    + pose proof (inv_registered w Hinv r0 q Hq Hqc Hqr) as Hqreg.
      rewrite lookup_delete_ne; [exact Hqreg|].
      intros Heq. rewrite <- Heq in Hqreg. congruence.
  - intros n. unfold lost_signals, lost_sessions. rewrite Hlog.
    rewrite List.filter_app, length_app.
    pose proof (count_insert (lost n) (players w) r p (set_connected false p) Hp) as Hcount.
    assert (lost n p = false) as Hl1 by (unfold lost; rewrite Hc, andb_false_r; reflexivity).
    assert (lost n (set_connected false p) = String.eqb n (_name p)) as Hl2.
    { unfold lost, registered in *. cbn [set_connected _disconnect_cb _name _connected].
      rewrite Hr, !andb_true_r. apply String.eqb_sym. }
    rewrite Hl1, Hl2 in Hcount.
    pose proof (inv_lost w Hinv n) as Hold. unfold lost_signals, lost_sessions in Hold.
    cbn [List.filter]. destruct (String.eqb n (_name p)); cbn [length Nat.b2n] in *; lia.
Qed.

Lemma inv_player_op (w : World D B) (r : nat) (o : PlayerOp) :
  registry_inv w -> registry_inv (snd (on_player r (player_op o) w)).
Proof.
  intros Hinv. unfold on_player.
  destruct (players w !! r) as [p|] eqn:Hp; [|exact Hinv].
  assert (o = OpDisconnect \/ match o with OpDisconnect => False | _ => True end)
    as [->|Ho'] by (destruct o; auto).
  - cbn [player_op]. rewrite disconnect_eq.
    destruct (_connected p) eqn:Hc; cbn [snd].
    + destruct (_disconnect_cb p) as [cb|] eqn:Hcb.
      * assert (registered p = true) as Hr by (unfold registered; rewrite Hcb; reflexivity).
        pose proof (inv_registered w Hinv r p Hp Hc Hr) as Hreg. unfold cp_map in Hreg.
        cbv zeta. rewrite Hreg.
        apply inv_disconnect_registered; try assumption.
        -- reflexivity.
        -- cbn [log append_log set_connected_players]. unfold player_lost_signals.
           rewrite !omap_app. cbn. rewrite !app_nil_r. reflexivity.
      * apply inv_disconnect_unregistered; try assumption.
        -- unfold registered. rewrite Hcb. reflexivity.
        -- reflexivity.
        -- cbn [log append_log]. apply player_lost_signals_snoc_other. exact I.
    + apply inv_replace with (p := p); auto.
  - pose proof (other_ops_preserve_registry o Ho' (p, env w)) as Hpres.
    destruct (player_op o (p, env w)) as [res [p' e']].
    unfold obs_registry in Hpres. cbn [fst snd] in Hpres.
    injection Hpres as Hn Hc Hcb Hmap Hlog.
    apply inv_replace with (p := p); auto.
Qed.

Lemma inv_init (cls pname : string) (d : D) (t0 : Z) :
  registry_inv (init_world (B:=B) cls pname d t0).
Proof.
  split; unfold cp_map; cbn.
  - intros n r Hl. rewrite lookup_empty in Hl. discriminate.
  - intros r p Hp. rewrite lookup_nil in Hp. discriminate.
  - reflexivity.
Qed.

Lemma inv_step (o : Op) (w : World D B) :
  names_as_requested D B -> registry_inv w -> registry_inv (step PREFIX o w).
Proof.
  intros Hnames Hinv. destruct o as [name|r o|ms]; cbn [step].
  - apply inv_ConnectPlayer; assumption.
  - apply inv_player_op; assumption.
  - destruct Hinv as [H1 H2 H3]. split; assumption.
Qed.

Lemma inv_run (ops : list Op) (w : World D B) :
  names_as_requested D B -> registry_inv w -> registry_inv (run PREFIX ops w).
Proof.
  intros Hnames. revert w. induction ops as [|o ops IH]; intros w Hinv; [exact Hinv|].
  apply IH. apply inv_step; assumption.
Qed.

(** C8.  With a driver that names each player it creates by the name it was
    asked for, in every state reached from the creation of the proxy by
    [ConnectPlayer] calls, calls on the players ([disconnect] among them) and
    the passing of time: a name bound to a player object is bound to a
    connected player of that name; for every name, the number of [PlayerLost]
    signals emitted equals the number of registered sessions of that name now
    disconnected; and [disconnect] on a connected registered session finds
    its entry, removes it and emits [PlayerLost] with its name exactly once,
    while on any other session it emits nothing and leaves the map as it
    is. *)
Theorem registry_invariant (cls pname : string) (d : D) (t0 : Z) (ops : list Op) :
  names_as_requested D B ->
  let w := run PREFIX ops (init_world cls pname d t0) in
  (forall (n : string) (r : nat),
     cp_map w !! n = Some (Some r) ->
     exists p, players w !! r = Some p /\ _connected p = true /\ _name p = n)
  /\ (forall n : string, lost_signals n (log (env w)) = lost_sessions n (players w))
  /\ (forall (r : nat) (p : BasePlayer B),
        players w !! r = Some p ->
        let w' := step PREFIX (OpPlayer r OpDisconnect) w in
        if _connected p && registered p then
          cp_map w !! _name p = Some (Some r)
          /\ cp_map w' = delete (_name p) (cp_map w)
          /\ player_lost_signals (log (env w'))
             = player_lost_signals (log (env w)) ++ [_name p]
          /\ (_connected <$> players w' !! r) = Some false
        else
          cp_map w' = cp_map w
          /\ player_lost_signals (log (env w')) = player_lost_signals (log (env w))).
Proof.
  intros Hnames w.
  assert (registry_inv w) as Hinv by (apply inv_run; [exact Hnames|apply inv_init]).
  clearbody w. split; [|split].
  - intros n r Hl. destruct (inv_live w Hinv n r Hl) as (p & Hp & Hc & Hn & _). eauto.
  - apply (inv_lost w Hinv).
  - intros r p Hp. cbv zeta. cbn [step]. unfold on_player. rewrite Hp.
    cbn [player_op]. rewrite disconnect_eq. unfold cp_map.
    pose proof (lookup_lt_Some _ _ _ Hp) as Hlt.
    destruct (_connected p) eqn:Hc; cbn [andb snd players env].
    + unfold registered at 1. destruct (_disconnect_cb p) as [cb|] eqn:Hcb.
      * assert (registered p = true) as Hr by (unfold registered; rewrite Hcb; reflexivity).
        pose proof (inv_registered w Hinv r p Hp Hc Hr) as Hreg. unfold cp_map in Hreg.
        cbv zeta. rewrite Hreg. split; [reflexivity|].
        cbn [log append_log set_connected_players proxy _connected_players].
        split; [reflexivity|].
        split.
        -- unfold player_lost_signals. rewrite !omap_app. cbn. rewrite !app_nil_r.
           reflexivity.
        -- rewrite list_lookup_insert_eq by exact Hlt. reflexivity.
      * cbn [log append_log proxy]. split; [reflexivity|].
        apply player_lost_signals_snoc_other. exact I.
    + split; reflexivity.
Qed.

(** C4.  After a [ConnectPlayer] that returned a path, a second
    [ConnectPlayer] with the same name returns the same path and leaves the
    world as it is, so it does not call the driver; when no live session
    existed before the first call, [do_connect_player] was called exactly
    once over the two calls. *)
Theorem ConnectPlayer_twice (w w1 : World D B) (name path : string) :
  ConnectPlayer PREFIX name w = (Ok path, w1) ->
  ConnectPlayer PREFIX name w1 = (Ok path, w1)
  /\ ((forall r, cp_map w !! name <> Some (Some r)) ->
        driver_calls (log (env w1)) = driver_calls (log (env w)) ++ [name]).
Proof.
  intros H.
  assert ((exists r, cp_map w !! name = Some (Some r))
          \/ (forall r0, cp_map w !! name <> Some (Some r0))) as [[r Hm]|Hmiss].
  { destruct (cp_map w !! name) as [[r|]|]; [left; eauto|right; discriminate..]. }
  - destruct (players w !! r) as [p|] eqn:Hp.
    + rewrite (ConnectPlayer_hit w name r p Hm Hp) in H. injection H as <- <-.
      split; [apply (ConnectPlayer_hit w name r p Hm Hp)|].
      intros Hmiss. destruct (Hmiss r Hm).
    + exfalso. revert H. unfold ConnectPlayer, setdefault_None. xred.
      unfold cp_map in Hm. rewrite Hm. xred. unfold on_player. rewrite Hp. discriminate.
  - rewrite (ConnectPlayer_miss w name Hmiss) in H. cbv zeta in H.
    destruct (do_connect_player name (driver w)) as [o d'].
    destruct o as [ex| |n b c]; [destruct ex; discriminate H|discriminate H|].
    destruct c; [|discriminate H]. injection H as <- <-.
    split.
    + apply (ConnectPlayer_hit _ name (length (players w))
               (set_disconnect_cb_field (Some player_lost_cb)
                  (set_connected true (BasePlayer_init PREFIX (proxy (env w)) n b)))).
      * unfold cp_map. cbn [env proxy set_connected_players _connected_players].
        apply lookup_insert_eq.
      * cbn [players]. apply lookup_snoc_length.
    + intros _. cbn [env log append_log set_connected_players].
      unfold driver_calls. rewrite omap_app. reflexivity.
Qed.

(** C5.  With no live session for the name: when the driver raises a
    [TypeError], [ConnectPlayer] raises a [BaseError] whose cause is that very
    exception; when the driver returns [None] or a player that is not
    connected, it raises [ConnectPlayerError]; in both cases the map is the
    old one with the name bound to [None], so no session was registered. *)
Theorem ConnectPlayer_failure (w : World D B) (name : string) :
  (forall r, cp_map w !! name <> Some (Some r)) ->
  let res := ConnectPlayer PREFIX name w in
  let outcome := fst (do_connect_player name (driver w)) in
  (forall msg : string,
     outcome = DriverRaises (TypeError msg) ->
     fst res = Raise (BaseError (cannot_instantiate (proxy (env w)) name)
                        (Some (TypeError msg)))
     /\ cp_map (snd res) = <[name := None]> (cp_map w))
  /\ (outcome = DriverReturnsNone \/ (exists n b, outcome = DriverCreates n b false) ->
      fst res = Raise (ConnectPlayerError ["%s cannot be connected"; name])
      /\ cp_map (snd res) = <[name := None]> (cp_map w)).
Proof.
  intros Hmiss. cbv zeta. rewrite (ConnectPlayer_miss w name Hmiss). cbv zeta.
  destruct (do_connect_player name (driver w)) as [o d']. cbn [fst].
  split.
  - intros msg ->. split; reflexivity.
  - intros [-> | (n & b & ->)]; split; reflexivity.
Qed.
End Proxy.

(** ** Examples of the registry *)

(** Two connections in a row: the same path, one call of the driver. *)
Lemma ConnectPlayer_twice_witness :
  let w1 := snd (ConnectPlayer example_prefix "a" example_world) in
  ConnectPlayer example_prefix "a" w1 = (Ok "/org/osdlyrics/PlayerProxy/simple/a"%string, w1)
  /\ driver_calls (log (env w1)) = ["a"%string].
Proof.
  cbv zeta.
  assert (ConnectPlayer example_prefix "a" example_world
          = (Ok "/org/osdlyrics/PlayerProxy/simple/a"%string,
             snd (ConnectPlayer example_prefix "a" example_world))) as H0
    by (vm_compute; reflexivity).
  split.
  - exact (proj1 (ConnectPlayer_twice _ _ _ _ _ H0)).
  - apply (proj2 (ConnectPlayer_twice _ _ _ _ _ H0)).
    intros r. vm_compute. discriminate.
Defined.

(** A driver that raises [TypeError]: the error wraps it, and the name is
    bound to [None]. *)
Lemma ConnectPlayer_failure_witness :
  let res := ConnectPlayer (Driver0 := failing_driver) example_prefix "a" example_world in
  fst res = Raise (BaseError "Proxy cannot instantiate Player[simple, a]"
                     (Some (TypeError "bad arguments")))
  /\ cp_map (snd res) = <["a"%string := None]> (cp_map example_world).
Proof.
  cbv zeta.
  assert (forall r : nat, cp_map example_world !! "a"%string <> Some (Some r)) as Hmiss
    by (intros r; vm_compute; discriminate).
  apply (proj1 (ConnectPlayer_failure (Driver0 := failing_driver) example_prefix
                  example_world "a" Hmiss) "bad arguments").
  reflexivity.
Defined.

(** Connect, disconnect twice, connect again: the object is unpublished once,
    the callback is invoked once, there is one [PlayerLost], the driver is
    called for each connection, and the name is bound to the second
    session. *)
Example registry_run :
  let w := run example_prefix example_ops example_world in
  removals (log (env w)) = ["/org/osdlyrics/PlayerProxy/simple/a"%string]
  /\ cb_calls (log (env w)) = ["/org/osdlyrics/PlayerProxy/simple/a"%string]
  /\ player_lost_signals (log (env w)) = ["a"%string]
  /\ driver_calls (log (env w)) = ["a"%string; "a"%string]
  /\ cp_map w !! "a"%string = Some (Some 1%nat).
Proof. vm_compute. repeat split. Qed.

Lemma registry_invariant_witness :
  let w := run example_prefix example_ops example_world in
  (forall (n : string) (r : nat),
     cp_map w !! n = Some (Some r) ->
     exists p, players w !! r = Some p /\ _connected p = true /\ _name p = n)
  /\ (forall n : string, lost_signals n (log (env w)) = lost_sessions n (players w))
  /\ (forall (r : nat) (p : BasePlayer Simple),
        players w !! r = Some p ->
        let w' := step example_prefix (OpPlayer r OpDisconnect) w in
        if _connected p && registered p then
          cp_map w !! _name p = Some (Some r)
          /\ cp_map w' = delete (_name p) (cp_map w)
          /\ player_lost_signals (log (env w'))
             = player_lost_signals (log (env w)) ++ [_name p]
          /\ (_connected <$> players w' !! r) = Some false
        else
          cp_map w' = cp_map w
          /\ player_lost_signals (log (env w')) = player_lost_signals (log (env w))).
Proof.
  exact (registry_invariant example_prefix "Proxy" "simple" tt 0 example_ops
           (fun name d => eq_refl)).
Defined.

(** * Further properties *)

Lemma backend_calls_snoc (l : list Event) (path : string) (c : Call) :
  backend_calls (l ++ [BackendCall path c]) = backend_calls l ++ [c].
Proof. unfold backend_calls. rewrite omap_app. reflexivity. Qed.

Lemma backend_calls_snoc_other (l : list Event) (ev : Event) :
  match ev with BackendCall _ _ => False | _ => True end ->
  backend_calls (l ++ [ev]) = backend_calls l.
Proof.
  intros H. unfold backend_calls. rewrite omap_app.
  destruct ev; try contradiction; cbn; apply app_nil_r.
Qed.

(** ** The caches of the status and of the capabilities *)

Section Caches.
Context {B : Type} `{!Backend B}.

Lemma _get_cached_status_miss (p : BasePlayer B) (e : Env) :
  _status p = None ->
  _get_cached_status (p, e)
  = match get_status (derived p) with
    | (Ok st, b') =>
        (Ok st, (set_status (Some st) (set_derived b' p),
                 append_log (BackendCall (_object_path p) CGetStatus) e))
    | (Raise ex, b') =>
        (Raise ex, (set_derived b' p,
                    append_log (BackendCall (_object_path p) CGetStatus) e))
    end.
Proof.
  intros H. unfold _get_cached_status. mred. rewrite H. mred.
  unfold backend_call. cbn [fst snd].
  destruct (get_status (derived p)) as [[st|ex] b']; reflexivity.
Qed.

(** X1.  The status cache: a read that returns leaves the status cached, has
    queried the backend once if the cache was empty and not at all otherwise,
    and a second read returns the same status without touching anything.  A
    read that raises happened on an empty cache, queried the backend once and
    caches nothing, so the next read queries again. *)
Theorem cached_status_memo (s : BasePlayer B * Env) :
  let r := fst (_get_cached_status s) in
  let s1 := snd (_get_cached_status s) in
  match r with
  | Ok st =>
      _status (fst s1) = Some st
      /\ _get_cached_status s1 = (Ok st, s1)
      /\ backend_calls (log (snd s1))
         = backend_calls (log (snd s))
             ++ match _status (fst s) with Some _ => [] | None => [CGetStatus] end
  | Raise _ =>
      _status (fst s) = None /\ _status (fst s1) = None
      /\ backend_calls (log (snd s1)) = backend_calls (log (snd s)) ++ [CGetStatus]
  end.
Proof.
  destruct s as [p e]. cbv zeta. cbn [fst snd].
  destruct (_status p) as [st0|] eqn:Hst.
  - rewrite (_get_cached_status_hit p e st0 Hst). cbn [fst snd].
    rewrite app_nil_r. auto using _get_cached_status_hit.
  - rewrite (_get_cached_status_miss p e Hst).
    destruct (get_status (derived p)) as [[st|ex] b'];
      cbn [fst snd log append_log]; rewrite backend_calls_snoc.
    + split; [reflexivity|]. split; [|reflexivity].
      apply _get_cached_status_hit. reflexivity.
    + auto.
Qed.

Lemma caps_loop_player (orig_caps caps : gset Z) (l : list (Z * string))
    (p : BasePlayer B) (e : Env) :
  exists e' : Env,
    for_each l (fun '(cap, method) =>
      if chained_in_ne_in cap orig_caps cap caps then
        assign_property method (Can_setter (py_in cap caps)) (PBool (py_in cap caps))
      else mret tt) (p, e) = (Ok tt, (p, e'))
    /\ backend_calls (log e') = backend_calls (log e).
Proof.
  revert e. induction l as [|[cap method] l IH]; intros e.
  - exists e. split; reflexivity.
  - cbn [for_each]. bind_step.
    destruct (chained_in_ne_in cap orig_caps cap caps).
    + rewrite assign_Can.
      destruct (IH (append_log (PropertySet (_object_path p) method (PBool (py_in cap caps))) e))
        as (e' & Heq & Hcalls).
      exists e'. split; [exact Heq|]. rewrite Hcalls. cbn [log append_log].
      apply backend_calls_snoc_other. exact I.
    + cbn [mret M_ret]. apply IH.
Qed.

Lemma caps_changed_raises (p : BasePlayer B) (e : Env) (ex : exn) (b' : B) :
  get_caps (derived p) = (Raise ex, b') ->
  caps_changed (p, e)
  = (Raise ex, (set_derived b' p, append_log (BackendCall (_object_path p) CGetCaps) e)).
Proof.
  intros Hg. unfold caps_changed. mred. unfold backend_call. cbn [fst snd].
  rewrite Hg. reflexivity.
Qed.

Lemma caps_changed_returns (p : BasePlayer B) (e : Env) (caps : gset Z) (b' : B) :
  get_caps (derived p) = (Ok caps, b') ->
  exists e' : Env,
    caps_changed (p, e) = (Ok tt, (set_caps (Some caps) (set_derived b' p), e'))
    /\ backend_calls (log e') = backend_calls (log e) ++ [CGetCaps].
Proof.
  intros Hg. unfold caps_changed. mred. unfold backend_call. cbn [fst snd].
  rewrite Hg. mred.
  destruct (_caps p) as [orig|].
  - destruct (caps_loop_player orig caps caps_map (set_caps (Some caps) (set_derived b' p))
                (append_log (BackendCall (_object_path p) CGetCaps) e))
      as (e' & Heq & Hcalls).
    exists e'. split; [exact Heq|]. rewrite Hcalls. cbn [log append_log].
    apply backend_calls_snoc.
  - eexists. split; [reflexivity|]. cbn [log append_log]. apply backend_calls_snoc.
Qed.

(** X2.  [caps_changed] queries the backend's [get_caps] exactly once.  When
    the query returns, the new set is cached and each of the five capability
    getters then answers membership in it without a further query, whatever
    was or was not republished.  When the query raises, [caps_changed] raises
    the same exception, keeps the old cache and republishes nothing. *)
Theorem caps_changed_refreshes (s : BasePlayer B * Env) :
  let r := fst (caps_changed s) in
  let s1 := snd (caps_changed s) in
  backend_calls (log (snd s1)) = backend_calls (log (snd s)) ++ [CGetCaps]
  /\ match fst (get_caps (derived (fst s))) with
     | Ok caps =>
         r = Ok tt
         /\ _caps (fst s1) = Some caps
         /\ forall cap : Z, Can_getter cap s1 = (Ok (py_in cap caps), s1)
     | Raise ex =>
         r = Raise ex /\ _caps (fst s1) = _caps (fst s)
         /\ property_sets (log (snd s1)) = property_sets (log (snd s))
     end.
Proof.
  destruct s as [p e]. cbv zeta. cbn [fst snd].
  destruct (get_caps (derived p)) as [[caps|ex] b'] eqn:Hg; cbn [fst].
  - destruct (caps_changed_returns p e caps b' Hg) as (e' & Heq & Hcalls).
    rewrite Heq. cbn [fst snd]. split; [exact Hcalls|].
    split; [reflexivity|]. split; [reflexivity|].
    intros cap. unfold Can_getter, _get_cached_caps. mred. reflexivity.
  - rewrite (caps_changed_raises p e ex b' Hg).
    cbn [fst snd log append_log set_derived _caps].
    split; [apply backend_calls_snoc|]. split; [reflexivity|]. split; [reflexivity|].
    unfold property_sets. rewrite omap_app. apply app_nil_r.
Qed.

(** X3.  On a session whose capability cache is still empty, [caps_changed]
    republishes no property at all, whatever the backend reports. *)
Theorem caps_changed_first_time (s : BasePlayer B * Env) :
  _caps (fst s) = None ->
  property_sets (log (snd (snd (caps_changed s)))) = property_sets (log (snd s)).
Proof.
  destruct s as [p e]. cbn [fst snd]. intros Hc.
  unfold caps_changed. mred. rewrite Hc. unfold backend_call. cbn [fst snd].
  destruct (get_caps (derived p)) as [[caps|ex] b']; mred;
    cbn [log append_log]; unfold property_sets; rewrite omap_app; apply app_nil_r.
Qed.
End Caches.

Lemma caps_changed_first_time_witness :
  property_sets (log (snd (snd (caps_changed (fresh_state STATUS.PLAYING)))))
  = property_sets (log (snd (fresh_state STATUS.PLAYING))).
Proof. exact (caps_changed_first_time (fresh_state STATUS.PLAYING) eq_refl). Defined.

(** ** Metadata and the track id *)

Section Metadata.
Context {B : Type} `{!Backend B}.

(** X4.  The first read of the [Metadata] property on an empty cache, when
    the backend's [get_metadata] returns: the dictionary returned is the
    backend's with the key [mpris:trackid] set to the current track id,
    overriding any value the backend gave under that key; the backend was
    queried once; and the next read returns the same dictionary without
    touching anything. *)
Theorem Metadata_getter_populates (s : BasePlayer B * Env) (md : Metadata) (b' : B) :
  _metadata (fst s) = None ->
  get_metadata (derived (fst s)) = (Ok md, b') ->
  let dct := <["mpris:trackid" := MStr (_get_current_trackid (fst s))]> (to_mpris2 md) in
  let s1 := snd (Metadata_getter s) in
  fst (Metadata_getter s) = Ok dct
  /\ Metadata_getter s1 = (Ok dct, s1)
  /\ backend_calls (log (snd s1)) = backend_calls (log (snd s)) ++ [CGetMetadata]
  /\ dct !! "mpris:trackid" = Some (MStr (_get_current_trackid (fst s)))
  /\ (forall k : string, k <> "mpris:trackid" -> dct !! k = to_mpris2 md !! k).
Proof.
  destruct s as [p e]. cbn [fst snd]. intros Hm Hg. cbv zeta.
  unfold Metadata_getter, _get_cached_metadata. mred. rewrite Hm.
  unfold backend_call, _make_metadata. mred. rewrite Hg. mred.
  cbn [set_derived _current_trackid set_metadata _metadata log append_log].
  unfold _get_current_trackid. cbn [set_derived _current_trackid].
  split; [reflexivity|]. split; [reflexivity|].
  split; [apply backend_calls_snoc|].
  split; [apply lookup_insert_eq|].
  intros k Hk. apply lookup_insert_ne. congruence.
Qed.

(** The state in which [track_changed] leaves the session when it returns. *)
Lemma track_changed_returns (metadata : option Metadata) (s s1 : BasePlayer B * Env) :
  track_changed metadata s = (Ok tt, s1) ->
  _current_trackid (fst s1) = _current_trackid (fst s) + 1
  /\ exists dct, _metadata (fst s1) = Some dct
       /\ dct !! "mpris:trackid" = Some (trackid_value (_current_trackid (fst s) + 1)).
Proof.
  destruct s as [p e]. unfold track_changed. mred.
  cbn [set_current_trackid _timer].
  assert (forall (p1 : BasePlayer B) (e1 : Env),
            _current_trackid p1 = _current_trackid p + 1 ->
            (match metadata with
             | Some md => mret md
             | None => backend_call CGetMetadata get_metadata
             end ≫= fun md => _make_metadata md ≫= fun dct =>
             assign_property "Metadata" (Metadata_setter dct) (PDict dct)) (p1, e1)
            = (Ok tt, s1) ->
            _current_trackid (fst s1) = _current_trackid p + 1
            /\ exists dct, _metadata (fst s1) = Some dct
                 /\ dct !! "mpris:trackid" = Some (trackid_value (_current_trackid p + 1)))
    as Hmd.
  { intros p1 e1 Hid. bind_step.
    assert (forall md p2 e2, _current_trackid p2 = _current_trackid p + 1 ->
              (_make_metadata md ≫= fun dct =>
               assign_property "Metadata" (Metadata_setter dct) (PDict dct)) (p2, e2)
              = (Ok tt, s1) ->
              _current_trackid (fst s1) = _current_trackid p + 1
              /\ exists dct, _metadata (fst s1) = Some dct
                   /\ dct !! "mpris:trackid"
                      = Some (trackid_value (_current_trackid p + 1))) as Hfin.
    { intros md p2 e2 Hid2. unfold _make_metadata, assign_property, Metadata_setter. mred.
      intros [= <-]. cbn [fst set_metadata _current_trackid _metadata].
      split; [exact Hid2|]. eexists. split; [reflexivity|].
      rewrite lookup_insert_eq. unfold _get_current_trackid, trackid_value.
      rewrite Hid2. reflexivity. }
    destruct metadata as [md|].
    - cbn [mret M_ret]. apply Hfin. exact Hid.
    - unfold backend_call. cbn [fst snd].
      destruct (get_metadata (derived p1)) as [[md|ex] b1]; [|discriminate].
      apply Hfin. exact Hid. }
  cbn [fst snd].
  destruct (_timer p) as [tm|] eqn:Htm.
  - mred. unfold backend_call. cbn [fst snd].
    destruct (get_position _) as [[pos|ex] b1]; [|discriminate].
    unfold timer_set_time. mred. cbn [set_derived set_current_trackid _timer].
    rewrite Htm. mred. apply Hmd. reflexivity.
  - mred. apply Hmd. reflexivity.
Qed.

Lemma trackid_string_inj (a b : Z) :
  ("/" +:+ pretty a) = ("/" +:+ pretty b) -> a = b.
Proof. intros H. injection H as H. apply (inj pretty). exact H. Qed.

(** X5.  After a [track_changed] that returns, the [Metadata] property
    carries the current track id; a [SetPosition] with that id goes through
    as one backend [set_position] call; a [SetPosition] with the id that was
    current before the notification is dropped without any effect. *)
Theorem track_changed_then_SetPosition (metadata : option Metadata)
    (s s1 : BasePlayer B * Env) (position : Z) :
  track_changed metadata s = (Ok tt, s1) ->
  (exists dct, Metadata_getter s1 = (Ok dct, s1)
     /\ dct !! "mpris:trackid" = Some (MStr (_get_current_trackid (fst s1))))
  /\ log (snd (snd (SetPosition (_get_current_trackid (fst s1)) position s1)))
     = log (snd s1) ++ [BackendCall (_object_path (fst s1)) (CSetPosition (position / 1000))]
  /\ SetPosition (_get_current_trackid (fst s)) position s1 = (Ok tt, s1).
Proof.
  intros H. destruct (track_changed_returns metadata s s1 H) as (Hid & dct & Hm & Hd).
  destruct s1 as [p1 e1]. cbn [fst snd] in *.
  split; [|split].
  - exists dct. unfold Metadata_getter, _get_cached_metadata. mred. rewrite Hm.
    split; [reflexivity|]. rewrite Hd. unfold trackid_value, _get_current_trackid.
    rewrite Hid. reflexivity.
  - unfold SetPosition. mred. rewrite String.eqb_refl. cbn [negb].
    unfold backend_call. cbn [fst snd]. destruct (set_position _ _). reflexivity.
  - unfold SetPosition. mred.
    destruct (String.eqb_spec (_get_current_trackid (fst s)) (_get_current_trackid p1))
      as [Heq|Hne]; [|reflexivity].
    unfold _get_current_trackid in Heq. apply trackid_string_inj in Heq. lia.
Qed.

(** X6.  When [track_changed] raises (a backend query failed), the track id
    has been incremented all the same, while the cached metadata and the
    published properties are those of before: the id every client holds is
    the previous one, and a [SetPosition] with it is dropped. *)
Theorem track_changed_raises (metadata : option Metadata)
    (s s1 : BasePlayer B * Env) (ex : exn) (position : Z) :
  track_changed metadata s = (Raise ex, s1) ->
  _current_trackid (fst s1) = _current_trackid (fst s) + 1
  /\ _metadata (fst s1) = _metadata (fst s)
  /\ property_sets (log (snd s1)) = property_sets (log (snd s))
  /\ SetPosition (_get_current_trackid (fst s)) position s1 = (Ok tt, s1).
Proof.
  intros H.
  assert (_current_trackid (fst s1) = _current_trackid (fst s) + 1
          /\ _metadata (fst s1) = _metadata (fst s)
          /\ property_sets (log (snd s1)) = property_sets (log (snd s))) as (Hid & Hm & Hp).
  { revert H. destruct s as [p e]. unfold track_changed. mred.
    cbn [set_current_trackid _timer fst snd].
    assert (forall (p1 : BasePlayer B) (e1 : Env),
              (match metadata with
               | Some md => mret md
               | None => backend_call CGetMetadata get_metadata
               end ≫= fun md => _make_metadata md ≫= fun dct =>
               assign_property "Metadata" (Metadata_setter dct) (PDict dct)) (p1, e1)
              = (Raise ex, s1) ->
              exists b1, s1 = (set_derived b1 p1,
                               append_log (BackendCall (_object_path p1) CGetMetadata) e1))
      as Hmd.
    { intros p1 e1. bind_step. destruct metadata as [md|].
      - cbn [mret M_ret]. unfold _make_metadata, assign_property, Metadata_setter. mred.
        discriminate.
      - unfold backend_call. cbn [fst snd].
        destruct (get_metadata (derived p1)) as [[md|ex1] b1].
        + unfold _make_metadata, assign_property, Metadata_setter. mred. discriminate.
        + intros [= <- <-]. eauto. }
    destruct (_timer p) as [tm|] eqn:Htm.
    - mred. unfold backend_call. cbn [fst snd].
      destruct (get_position _) as [[pos|ex1] b1].
      + unfold timer_set_time. mred. cbn [set_derived set_current_trackid _timer].
        rewrite Htm. mred. intros H. apply Hmd in H as [b2 ->].
        cbn [fst snd set_derived set_timer set_current_trackid _current_trackid _metadata
             log append_log].
        unfold property_sets. rewrite !omap_app. cbn. rewrite !app_nil_r. auto.
      + intros [= <- <-].
        cbn [fst snd set_derived set_timer set_current_trackid _current_trackid _metadata
             log append_log].
        unfold property_sets. rewrite !omap_app. cbn. rewrite !app_nil_r. auto.
    - mred. intros H. apply Hmd in H as [b2 ->].
      cbn [fst snd set_derived set_timer set_current_trackid _current_trackid _metadata
           log append_log].
      unfold property_sets. rewrite !omap_app. cbn. rewrite !app_nil_r. auto. }
  split; [exact Hid|]. split; [exact Hm|]. split; [exact Hp|].
  destruct s1 as [p1 e1]. cbn [fst snd] in *. unfold SetPosition. mred.
  destruct (String.eqb_spec (_get_current_trackid (fst s)) (_get_current_trackid p1))
    as [Heq|Hne]; [|reflexivity].
  unfold _get_current_trackid in Heq. apply trackid_string_inj in Heq. lia.
Qed.

(** X7.  A [track_changed] that returns has queried the backend's
    [get_position] exactly when a Timer exists and its [get_metadata]
    exactly when no metadata was passed, in that order, and nothing else. *)
Theorem track_changed_queries (metadata : option Metadata) (s s1 : BasePlayer B * Env) :
  track_changed metadata s = (Ok tt, s1) ->
  backend_calls (log (snd s1))
  = backend_calls (log (snd s))
      ++ match _timer (fst s) with Some _ => [CGetPosition] | None => [] end
      ++ match metadata with Some _ => [] | None => [CGetMetadata] end.
Proof.
  destruct s as [p e]. unfold track_changed. mred.
  cbn [set_current_trackid _timer fst snd].
  assert (forall (p1 : BasePlayer B) (e1 : Env),
            (match metadata with
             | Some md => mret md
             | None => backend_call CGetMetadata get_metadata
             end ≫= fun md => _make_metadata md ≫= fun dct =>
             assign_property "Metadata" (Metadata_setter dct) (PDict dct)) (p1, e1)
            = (Ok tt, s1) ->
            backend_calls (log (snd s1))
            = backend_calls (log e1)
                ++ match metadata with Some _ => [] | None => [CGetMetadata] end) as Hmd.
  { intros p1 e1. bind_step. destruct metadata as [md|].
    - cbn [mret M_ret]. unfold _make_metadata, assign_property, Metadata_setter. mred.
      intros [= <-]. cbn [snd log append_log].
      rewrite backend_calls_snoc_other by exact I. symmetry. apply app_nil_r.
    - unfold backend_call. cbn [fst snd].
      destruct (get_metadata (derived p1)) as [[md|ex1] b1]; [|discriminate].
      unfold _make_metadata, assign_property, Metadata_setter. mred.
      intros [= <-]. cbn [snd log append_log].
      rewrite backend_calls_snoc_other by exact I. apply backend_calls_snoc. }
  destruct (_timer p) as [tm|] eqn:Htm.
  - mred. unfold backend_call. cbn [fst snd].
    destruct (get_position _) as [[pos|ex1] b1]; [|discriminate].
    unfold timer_set_time. mred. cbn [set_derived set_current_trackid _timer].
    rewrite Htm. mred. intros H. apply Hmd in H. rewrite H. cbn [log append_log].
    rewrite backend_calls_snoc, <- app_assoc. reflexivity.
  - mred. intros H. apply Hmd in H. exact H.
Qed.
End Metadata.

Lemma Metadata_getter_populates_witness :
  fst (Metadata_getter (fresh_state STATUS.PLAYING))
  = Ok (<["mpris:trackid" := MStr (_get_current_trackid (fst (fresh_state STATUS.PLAYING)))]>
          (to_mpris2 {| to_mpris2 := ∅ |})).
Proof.
  exact (proj1 (Metadata_getter_populates (fresh_state STATUS.PLAYING)
                  {| to_mpris2 := ∅ |} (derived (fst (fresh_state STATUS.PLAYING)))
                  eq_refl eq_refl)).
Defined.

Lemma track_changed_then_SetPosition_witness :
  let s := fresh_state STATUS.PLAYING in
  let s1 := snd (track_changed None s) in
  SetPosition (_get_current_trackid (fst s)) 1234567 s1 = (Ok tt, s1).
Proof.
  cbv zeta.
  assert (track_changed None (fresh_state STATUS.PLAYING)
          = (Ok tt, snd (track_changed None (fresh_state STATUS.PLAYING)))) as H
    by (vm_compute; reflexivity).
  exact (proj2 (proj2 (track_changed_then_SetPosition None _ _ 1234567 H))).
Defined.

Lemma track_changed_raises_witness :
  let s1 := snd (track_changed (Backend0 := abstract_backend) None abstract_state) in
  _current_trackid (fst s1) = _current_trackid (fst abstract_state) + 1
  /\ _metadata (fst s1) = _metadata (fst abstract_state)
  /\ property_sets (log (snd s1)) = property_sets (log (snd abstract_state))
  /\ SetPosition (Backend0 := abstract_backend)
       (_get_current_trackid (fst abstract_state)) 1234567 s1 = (Ok tt, s1).
Proof.
  cbv zeta.
  assert (track_changed (Backend0 := abstract_backend) None abstract_state
          = (Raise NotImplementedError,
             snd (track_changed (Backend0 := abstract_backend) None abstract_state))) as H
    by (vm_compute; reflexivity).
  exact (track_changed_raises (Backend0 := abstract_backend) None _ _ _ 1234567 H).
Defined.

Lemma track_changed_queries_witness :
  let s := fresh_state STATUS.PLAYING in
  let s1 := snd (track_changed None s) in
  backend_calls (log (snd s1))
  = backend_calls (log (snd s))
      ++ match _timer (fst s) with Some _ => [CGetPosition] | None => [] end
      ++ match @None Metadata with Some _ => [] | None => [CGetMetadata] end.
Proof.
  cbv zeta.
  assert (track_changed None (fresh_state STATUS.PLAYING)
          = (Ok tt, snd (track_changed None (fresh_state STATUS.PLAYING)))) as H
    by (vm_compute; reflexivity).
  exact (track_changed_queries None _ _ H).
Defined.

(** ** status_changed and position_changed *)

Section Notifications.
Context {B : Type} `{!Backend B}.

(** X8.  [status_changed] queries the backend's [get_status] exactly once.
    When the query returns a status, that status is cached, the
    [PlaybackStatus] property is republished once with it, its getter then
    returns the matching string without a further query, and a Timer that
    exists is switched by the Timer method named after the status, while no
    Timer is created.  When the query raises, the cached status, the Timer
    and the published properties are left as they were. *)
Theorem status_changed_refreshes (s : BasePlayer B * Env) :
  let r := fst (status_changed s) in
  let s1 := snd (status_changed s) in
  backend_calls (log (snd s1)) = backend_calls (log (snd s)) ++ [CGetStatus]
  /\ match fst (get_status (derived (fst s))) with
     | Ok st =>
         r = Ok tt
         /\ _status (fst s1) = Some st
         /\ PlaybackStatus s1 = (Ok (PlaybackStatus_string st), s1)
         /\ property_sets (log (snd s1))
            = property_sets (log (snd s)) ++ [("PlaybackStatus"%string, PStatus st)]
         /\ match _timer (fst s) with
            | Some tm =>
                _timer (fst s1) = Some (status_map st tm (now (snd s)))
                /\ option_map Timer.state (_timer (fst s1)) = Some (timer_state_of st)
            | None => _timer (fst s1) = None
            end
     | Raise ex =>
         r = Raise ex
         /\ _status (fst s1) = _status (fst s)
         /\ _timer (fst s1) = _timer (fst s)
         /\ property_sets (log (snd s1)) = property_sets (log (snd s))
     end.
Proof.
  destruct s as [p e]. cbv zeta. cbn [fst snd].
  unfold status_changed. mred. unfold backend_call. cbn [fst snd].
  destruct (get_status (derived p)) as [[st|ex] b'] eqn:Hg; cbn [fst snd].
  - unfold _setup_timer_status, assign_property, PlaybackStatus_setter. mred.
    cbn [set_derived _timer].
    destruct (_timer p) as [tm|] eqn:Htm; mred;
      cbn [fst snd set_status set_timer set_derived _status _timer _object_path
           log append_log now option_map];
      (split; [rewrite backend_calls_snoc_other by exact I; apply backend_calls_snoc|]);
      (split; [reflexivity|]); (split; [reflexivity|]);
      (split; [unfold PlaybackStatus, _get_cached_status; mred; reflexivity|]);
      (split; [unfold property_sets; rewrite !omap_app; cbn; rewrite app_nil_r;
               reflexivity|]).
    + split; [reflexivity|]. rewrite status_map_state. reflexivity.
    + exact Htm.
  - cbn [set_derived _status _timer log append_log].
    split; [apply backend_calls_snoc|]. repeat split.
    unfold property_sets. rewrite omap_app. apply app_nil_r.
Qed.

(** X9.  [position_changed] never raises and never calls the backend; it
    emits exactly one [Seeked] signal, carrying the position in microseconds
    (the milliseconds times 1000); it sets the Timer to the position when a
    Timer exists and leaves the player object untouched when none does. *)
Theorem position_changed_signal (s : BasePlayer B * Env) (position : Z) :
  let s1 := snd (position_changed position s) in
  fst (position_changed position s) = Ok tt
  /\ backend_calls (log (snd s1)) = backend_calls (log (snd s))
  /\ seeked_signals (log (snd s1)) = seeked_signals (log (snd s)) ++ [position * 1000]
  /\ derived (fst s1) = derived (fst s)
  /\ match _timer (fst s) with
     | Some tm => _timer (fst s1) = Some (Timer.set_time tm position (now (snd s)))
     | None => fst s1 = fst s
     end.
Proof.
  destruct s as [p e]. cbv zeta. unfold position_changed. mred.
  destruct (_timer p) as [tm|] eqn:Htm.
  - unfold timer_set_time. mred. rewrite Htm. mred.
    cbn [fst snd set_timer _timer derived log append_log].
    split; [reflexivity|].
    split; [apply backend_calls_snoc_other; exact I|].
    split; [unfold seeked_signals; rewrite omap_app; reflexivity|].
    split; reflexivity.
  - mred. cbn [fst snd log append_log].
    split; [reflexivity|].
    split; [apply backend_calls_snoc_other; exact I|].
    split; [unfold seeked_signals; rewrite omap_app; reflexivity|].
    split; reflexivity.
Qed.

End Notifications.

(** ** Rounding and failure at the edges *)

Section Edges.
Context {B : Type} `{!Backend B}.

Lemma Seek_target (s s1 : BasePlayer B * Env) (p offset : Z) :
  _get_cached_position s = (Ok p, s1) ->
  Seek offset s
  = backend_call (CSetPosition (Z.max 0 (p + offset / 1000)))
      (set_position (Z.max 0 (p + offset / 1000))) s1.
Proof.
  intros Hp. unfold Seek. bind_step. rewrite Hp.
  replace (if p + offset / 1000 <? 0 then 0 else p + offset / 1000)
    with (Z.max 0 (p + offset / 1000)); [reflexivity|].
  destruct (Z.ltb_spec (p + offset / 1000) 0); lia.
Qed.

(** X10.  [Seek] with an offset of less than a millisecond, from a position
    [p >= 0]: a negative offset moves back one full millisecond (to 0 from
    0), a non-negative one does not move, because the microseconds are
    floor-divided. *)
Theorem Seek_sub_millisecond (s s1 : BasePlayer B * Env) (p offset : Z) :
  _get_cached_position s = (Ok p, s1) ->
  0 <= p ->
  -1000 < offset < 1000 ->
  set_position_calls (log (snd (snd (Seek offset s))))
  = set_position_calls (log (snd s1))
      ++ [if offset <? 0 then Z.max 0 (p - 1) else p].
Proof.
  intros Hp Hp0 Hoff. rewrite (Seek_target s s1 p offset Hp).
  unfold backend_call. destruct (set_position _ _) as [r b'].
  cbn [fst snd log append_log]. unfold set_position_calls. rewrite omap_app.
  cbn [omap list_omap]. do 2 f_equal.
  destruct (Z.ltb_spec offset 0) as [Hneg|Hpos].
  - replace (offset / 1000) with (-1); [lia|].
    apply Z.div_unique with (r := offset + 1000); lia.
  - rewrite Z.div_small by lia. lia.
Qed.

(** X11.  [SetPosition], unlike [Seek], applies no lower bound: with the
    current track id and a negative position, the backend receives the
    negative value [position // 1000]. *)
Theorem SetPosition_no_clamp (s : BasePlayer B * Env) (position : Z) :
  position < 0 ->
  exists pos : Z,
    set_position_calls (log (snd (snd (SetPosition (_get_current_trackid (fst s)) position s))))
    = set_position_calls (log (snd s)) ++ [pos]
    /\ pos < 0 /\ pos = position / 1000.
Proof.
  intros Hneg. exists (position / 1000). destruct s as [p e]. cbn [fst snd].
  unfold SetPosition. mred. rewrite String.eqb_refl. cbn [negb].
  unfold backend_call. destruct (set_position _ _) as [r b'].
  cbn [fst snd log append_log]. unfold set_position_calls. rewrite omap_app.
  split; [reflexivity|]. split; [|reflexivity].
  apply Z.div_lt_upper_bound; lia.
Qed.

(** X12.  A first position read that raises (the backend's [get_status] or
    [get_position] failed) leaves a Timer behind all the same: every later
    read returns that Timer's value and changes nothing, so the backend is
    not asked for the position again. *)
Theorem Position_failed_first_read (s s1 : BasePlayer B * Env) (ex : exn) :
  _timer (fst s) = None ->
  Position s = (Raise ex, s1) ->
  exists tm : Timer.t,
    _timer (fst s1) = Some tm
    /\ forall e2 : Env,
         Position (fst s1, e2) = (Ok (Timer.time tm (now e2)), (fst s1, e2)).
Proof.
  intros Ht H.
  assert (exists tm, _timer (fst s1) = Some tm) as [tm Htm].
  { revert H. destruct s as [p e]. cbn [fst] in Ht.
    unfold Position, _get_cached_position. mred. rewrite Ht.
    unfold _setup_timer. mred. rewrite Ht. mred.
    destruct (_get_cached_status (set_timer (Some (Timer.new (now e))) p, e))
      as [[st|ex1] [p1 e1]] eqn:Hs.
    - apply _get_cached_status_ok in Hs. cbn [fst snd set_timer _timer] in Hs.
      destruct Hs as (Hst & Htm & _).
      unfold _setup_timer_status. mred. rewrite Htm. mred.
      rewrite (_get_cached_status_hit _ _ st) by exact Hst.
      destruct (negb (STATUS.eqb st STATUS.STOPPED)).
      + mred. unfold backend_call. cbn [fst snd].
        destruct (get_position _) as [[pos|ex1] b1].
        * unfold timer_set_time, timer_time. mred. cbn [set_derived set_timer _timer].
          mred. cbn [set_timer _timer]. mred. discriminate.
        * intros [= <- <-]. cbn [fst set_derived set_timer _timer]. eauto.
      + mred. unfold timer_time. mred. cbn [set_timer _timer]. mred. discriminate.
    - intros [= <- <-]. revert Hs. unfold _get_cached_status. mred.
      cbn [set_timer _status].
      destruct (_status p); mred; [discriminate|].
      unfold backend_call. cbn [fst snd].
      destruct (get_status _) as [[st|ex2] b1]; mred; [discriminate|].
      intros [= <- <- <-]. cbn [set_derived set_timer _timer]. eauto. }
  exists tm. split; [exact Htm|]. intros e2. apply Position_cached. exact Htm.
Qed.
End Edges.

Lemma Seek_sub_millisecond_witness :
  set_position_calls (log (snd (snd (Seek (-1) seek_state))))
  = set_position_calls (log (snd seek_state))
      ++ [if -1 <? 0 then Z.max 0 (5000 - 1) else 5000].
Proof.
  exact (Seek_sub_millisecond seek_state seek_state 5000 (-1) eq_refl
           ltac:(lia) ltac:(lia)).
Defined.

Lemma SetPosition_no_clamp_witness :
  exists pos : Z,
    set_position_calls
      (log (snd (snd (SetPosition (_get_current_trackid (fst seek_state)) (-1) seek_state))))
    = set_position_calls (log (snd seek_state)) ++ [pos]
    /\ pos < 0 /\ pos = -1 / 1000.
Proof. exact (SetPosition_no_clamp seek_state (-1) ltac:(lia)). Defined.

Lemma Position_failed_first_read_witness :
  let s1 := snd (Position (Backend0 := abstract_backend) abstract_state) in
  exists tm : Timer.t,
    _timer (fst s1) = Some tm
    /\ forall e2 : Env,
         Position (Backend0 := abstract_backend) (fst s1, e2)
         = (Ok (Timer.time tm (now e2)), (fst s1, e2)).
Proof.
  cbv zeta.
  assert (Position (Backend0 := abstract_backend) abstract_state
          = (Raise NotImplementedError,
             snd (Position (Backend0 := abstract_backend) abstract_state))) as H
    by (vm_compute; reflexivity).
  exact (Position_failed_first_read (Backend0 := abstract_backend) abstract_state _ _
           eq_refl H).
Defined.

(** ** LoopStatus *)

(** X13.  The strings of the [LoopStatus] getter and those its D-Bus setter
    accepts agree: writing the string the getter gives for a mode calls
    [set_repeat] with that mode; a string for which the setter calls
    [set_repeat] is the getter's string for that mode; every other string
    (the match is case sensitive) raises [ValueError] with the message
    ["Unknown loop status "] followed by the string, and no backend call is
    made. *)
Theorem LoopStatus_round_trip :
  (forall mode : REPEAT.t,
     LoopStatus_dbus_setter (LoopStatus_string mode) = Calls_set_repeat mode)
  /\ (forall (loop_status : string) (mode : REPEAT.t),
        LoopStatus_dbus_setter loop_status = Calls_set_repeat mode ->
        loop_status = LoopStatus_string mode)
  /\ (forall loop_status : string,
        (forall mode, loop_status <> LoopStatus_string mode) ->
        LoopStatus_dbus_setter loop_status
        = Raises_ValueError ("Unknown loop status " +:+ loop_status)).
Proof.
  assert (forall (loop_status : string) (mode : REPEAT.t),
            LoopStatus_status_map !! loop_status = Some mode ->
            loop_status = LoopStatus_string mode) as Hmap.
  { intros s m. unfold LoopStatus_status_map. cbn [list_to_map foldr uncurry fst snd].
    intros H. apply lookup_insert_Some in H as [[<- <-]|[_ H]]; [reflexivity|].
    apply lookup_insert_Some in H as [[<- <-]|[_ H]]; [reflexivity|].
    apply lookup_insert_Some in H as [[<- <-]|[_ H]]; [reflexivity|].
    rewrite lookup_empty in H. discriminate. }
  split; [|split].
  - intros []; vm_compute; reflexivity.
  - intros s m. unfold LoopStatus_dbus_setter.
    destruct (LoopStatus_status_map !! s) as [m'|] eqn:Hl; [|discriminate].
    intros [= <-]. apply Hmap. exact Hl.
  - intros s Hs. unfold LoopStatus_dbus_setter.
    destruct (LoopStatus_status_map !! s) as [m'|] eqn:Hl; [|reflexivity].
    destruct (Hs m' (Hmap s m' Hl)).
Qed.

(** ** PlayerInfo *)

Lemma to_dict_eq (p : PlayerInfo.t) : PlayerInfo.to_dict p = Some (to_dict_map p).
Proof. reflexivity. Qed.

Lemma to_dict_map_lookup (p : PlayerInfo.t) :
  to_dict_map p !! "name" = Some (PlayerInfo._name p)
  /\ to_dict_map p !! "appname" = Some (PlayerInfo._appname p)
  /\ to_dict_map p !! "binname" = Some (PlayerInfo._binname p)
  /\ to_dict_map p !! "cmd" = Some (PlayerInfo._cmd p)
  /\ to_dict_map p !! "icon" = Some (PlayerInfo._icon p).
Proof.
  unfold to_dict_map.
  repeat split; repeat (rewrite lookup_insert_ne by discriminate); apply lookup_insert_eq.
Qed.

(** X14.  [PlayerInfo.to_dict] always succeeds; the dictionary has exactly
    the five keys [name], [appname], [binname], [cmd] and [icon], each bound
    to the attribute of that name; and it determines the [PlayerInfo]: two
    descriptors with the same dictionary are equal. *)
Theorem to_dict_fields (p : PlayerInfo.t) :
  exists d : gmap string string,
    PlayerInfo.to_dict p = Some d
    /\ d !! "name" = Some (PlayerInfo._name p)
    /\ d !! "appname" = Some (PlayerInfo._appname p)
    /\ d !! "binname" = Some (PlayerInfo._binname p)
    /\ d !! "cmd" = Some (PlayerInfo._cmd p)
    /\ d !! "icon" = Some (PlayerInfo._icon p)
    /\ dom d = list_to_set PlayerInfo.keys
    /\ forall q : PlayerInfo.t, PlayerInfo.to_dict q = Some d -> q = p.
Proof.
  exists (to_dict_map p). split; [apply to_dict_eq|].
  destruct (to_dict_map_lookup p) as (H1 & H2 & H3 & H4 & H5).
  do 5 (split; [assumption|]).
  split.
  - unfold to_dict_map. rewrite !dom_insert_L, dom_empty_L. unfold PlayerInfo.keys.
    cbn [list_to_set foldr]. set_solver.
  - intros q Hq. rewrite to_dict_eq in Hq. apply (inj Some) in Hq.
    destruct (to_dict_map_lookup q) as (Q1 & Q2 & Q3 & Q4 & Q5).
    rewrite Hq in Q1, Q2, Q3, Q4, Q5.
    destruct p, q. cbn in *. congruence.
Qed.

(** X15.  The three listing methods return one dictionary for each
    [PlayerInfo] the driver lists, in the same order, each being the
    [to_dict] of its descriptor; the conversion never fails. *)
Theorem list_players_total (infos : list PlayerInfo.t) :
  exists ds : list (gmap string string),
    list_players infos = Some ds
    /\ length ds = length infos
    /\ forall (i : nat) (info : PlayerInfo.t),
         infos !! i = Some info -> PlayerInfo.to_dict info = ds !! i.
Proof.
  unfold list_players.
  assert (is_Some (mapM PlayerInfo.to_dict infos)) as [ds Hds].
  { apply mapM_is_Some. apply Forall_forall. intros p _. exists (to_dict_map p). apply to_dict_eq. }
  exists ds. split; [exact Hds|]. apply mapM_Some in Hds.
  split; [symmetry; eapply Forall2_length; exact Hds|].
  intros i info Hi.
  destruct (Forall2_lookup_l _ _ _ _ _ Hds Hi) as (d & Hd & Hto). congruence.
Qed.

(** ** The identity of a player and its connection flag *)

Section Identity.
Context {B : Type} `{!Backend B}.

Lemma player_op_identity (o : PlayerOp) : preserves obs_identity (player_op o).
Proof.
  unfold obs_identity.
  destruct o; cbn [player_op];
    unfold Seek, SetPosition, Position, Volume_dbus_setter, track_changed, status_changed,
      caps_changed, position_changed, disconnect, call_cb, _player_lost_cb, _make_metadata,
      assign_property, Can_setter, PlaybackStatus_setter, Metadata_setter,
      _get_cached_position, _setup_timer, _get_cached_status, _setup_timer_status,
      timer_set_time, timer_time;
    frame.
Qed.

Lemma player_op_stays_disconnected (o : PlayerOp) (s : BasePlayer B * Env) :
  _connected (fst s) = false -> _connected (fst (snd (player_op o s))) = false.
Proof.
  intros Hc.
  assert (o = OpDisconnect \/ match o with OpDisconnect => False | _ => True end)
    as [->|Ho] by (destruct o; auto).
  - cbn [player_op]. rewrite (disconnect_disconnected s Hc). exact Hc.
  - pose proof (other_ops_preserve_registry o Ho s) as Hp. unfold obs_registry in Hp.
    injection Hp as _ Hp _ _ _. congruence.
Qed.
End Identity.

(** ** More on the registry *)

Section Registry.
Context {D B : Type} `{!Backend B} `{!Driver D B}.
Variable PREFIX : string.

Lemma ConnectPlayer_dangling (w : World D B) (name : string) (r : nat) :
  cp_map w !! name = Some (Some r) ->
  players w !! r = None ->
  ConnectPlayer PREFIX name w = (Raise (OtherError 0), w).
Proof.
  unfold cp_map. intros Hm Hp. unfold ConnectPlayer, setdefault_None. xred.
  rewrite Hm. xred. unfold on_player. rewrite Hp. reflexivity.
Qed.

(** The three ways [ConnectPlayer] goes. *)
Lemma ConnectPlayer_cases (w : World D B) (name : string) :
  snd (ConnectPlayer PREFIX name w) = w
  \/ exists (e' : Env) (d' : D) (extra : list (BasePlayer B)),
       snd (ConnectPlayer PREFIX name w)
       = {| players := players w ++ extra; driver := d'; env := e' |}
       /\ (length extra <= 1)%nat
       /\ (exists v, _connected_players (proxy e') = <[name := v]> (cp_map w))
       /\ player_lost_signals (log e') = player_lost_signals (log (env w))
       /\ driver_calls (log e') = driver_calls (log (env w)) ++ [name].
Proof.
  assert ((exists r, cp_map w !! name = Some (Some r))
          \/ (forall r0, cp_map w !! name <> Some (Some r0))) as [[r Hm]|Hmiss].
  { destruct (cp_map w !! name) as [[r|]|]; [left; eauto|right; discriminate..]. }
  - left. destruct (players w !! r) as [p|] eqn:Hp.
    + rewrite (ConnectPlayer_hit PREFIX w name r p Hm Hp). reflexivity.
    + rewrite (ConnectPlayer_dangling w name r Hm Hp). reflexivity.
  - right. rewrite (ConnectPlayer_miss PREFIX w name Hmiss). cbv zeta.
    destruct (do_connect_player name (driver w)) as [o d'].
    assert (player_lost_signals
              (log (append_log (DriverCall name)
                      (set_connected_players (<[name := None]> (cp_map w)) (env w))))
            = player_lost_signals (log (env w))) as Hl.
    { cbn [log append_log set_connected_players].
      apply player_lost_signals_snoc_other. exact I. }
    assert (driver_calls
              (log (append_log (DriverCall name)
                      (set_connected_players (<[name := None]> (cp_map w)) (env w))))
            = driver_calls (log (env w)) ++ [name]) as Hd.
    { cbn [log append_log set_connected_players]. unfold driver_calls.
      rewrite omap_app. reflexivity. }
    assert (exists (e' : Env) (d2 : D) (extra : list (BasePlayer B)),
              ({| players := players w; driver := d';
                  env := append_log (DriverCall name)
                           (set_connected_players (<[name := None]> (cp_map w)) (env w)) |}
               : World D B)
              = {| players := players w ++ extra; driver := d2; env := e' |}
              /\ (length extra <= 1)%nat
              /\ (exists v, _connected_players (proxy e') = <[name := v]> (cp_map w))
              /\ player_lost_signals (log e') = player_lost_signals (log (env w))
              /\ driver_calls (log e') = driver_calls (log (env w)) ++ [name]) as Hfail.
    { eexists _, d', []. rewrite app_nil_r. split; [reflexivity|].
      split; [cbn; lia|]. split; [exists None; reflexivity|]. split; assumption. }
    destruct o as [ex| |n b c].
    + destruct ex; exact Hfail.
    + exact Hfail.
    + destruct c; cbn [snd].
      * eexists _, d', [_]. split; [reflexivity|]. split; [cbn; lia|].
        split; [|split; assumption].
        exists (Some (length (players w))).
        cbn [proxy _connected_players set_connected_players append_log].
        apply insert_insert_eq.
      * eexists _, d', [_]. split; [reflexivity|]. split; [cbn; lia|].
        split; [exists None; reflexivity|]. split; assumption.
Qed.

(** X16.  Whatever its outcome, [ConnectPlayer name] leaves every existing
    player object as it is, leaves the binding of every other name as it is,
    emits no [PlayerLost], and calls the driver at most once, with that
    name. *)
Theorem ConnectPlayer_frame (w : World D B) (name : string) :
  let w' := snd (ConnectPlayer PREFIX name w) in
  (forall (r : nat) (p : BasePlayer B),
     players w !! r = Some p -> players w' !! r = Some p)
  /\ (forall n : string, n <> name -> cp_map w' !! n = cp_map w !! n)
  /\ player_lost_signals (log (env w')) = player_lost_signals (log (env w))
  /\ (exists k : list string,
        driver_calls (log (env w')) = driver_calls (log (env w)) ++ k
        /\ (k = [] \/ k = [name])).
Proof.
  cbv zeta.
  destruct (ConnectPlayer_cases w name)
    as [->|(e' & d' & extra & -> & Hlen & [v Hmap] & Hlost & Hdrv)].
  - repeat split; auto. exists []. rewrite app_nil_r. auto.
  - unfold cp_map. cbn [players env]. split; [|split; [|split]].
    + intros r p Hp. apply lookup_app_l_Some. exact Hp.
    + intros n Hn. rewrite Hmap. apply lookup_insert_ne. congruence.
    + exact Hlost.
    + exists [name]. auto.
Qed.

(** X17.  Only [TypeError] is wrapped: when the driver raises any other
    exception, with no live session for the name, [ConnectPlayer] raises that
    very exception; the name is left bound to [None]. *)
Theorem ConnectPlayer_other_exception (w : World D B) (name : string) (ex : exn) :
  (forall r, cp_map w !! name <> Some (Some r)) ->
  fst (do_connect_player name (driver w)) = DriverRaises ex ->
  (forall msg, ex <> TypeError msg) ->
  fst (ConnectPlayer PREFIX name w) = Raise ex
  /\ cp_map (snd (ConnectPlayer PREFIX name w)) = <[name := None]> (cp_map w).
Proof.
  intros Hmiss Hex Hnt. rewrite (ConnectPlayer_miss PREFIX w name Hmiss). cbv zeta.
  destruct (do_connect_player name (driver w)) as [o d']. cbn [fst] in Hex. subst o.
  destruct ex; try (split; reflexivity). destruct (Hnt msg eq_refl).
Qed.

Lemma step_keeps_disconnected (o : Op) (w : World D B) (r : nat) (p : BasePlayer B) :
  players w !! r = Some p -> _connected p = false ->
  exists p', players (step PREFIX o w) !! r = Some p'
             /\ _connected p' = false /\ _name p' = _name p
             /\ _object_path p' = _object_path p.
Proof.
  intros Hp Hc. destruct o as [name|r0 o|ms]; cbn [step].
  - exists p. split; [|auto].
    destruct (ConnectPlayer_cases w name) as [->|(e' & d' & extra & -> & _)];
      [exact Hp|]. cbn [players]. apply lookup_app_l_Some. exact Hp.
  - unfold on_player. destruct (players w !! r0) as [p0|] eqn:Hp0; [|eauto].
    pose proof (player_op_identity o (p0, env w)) as Hid.
    pose proof (player_op_stays_disconnected o (p0, env w)) as Hdis.
    destruct (player_op o (p0, env w)) as [res [p0' e']].
    unfold obs_identity in Hid. cbn [fst snd players] in *. injection Hid as Hn Hpath.
    destruct (decide (r0 = r)) as [->|Hne].
    + assert (p0 = p) as -> by congruence.
      exists p0'. rewrite list_lookup_insert_eq by (eapply lookup_lt_Some; exact Hp).
      auto.
    + exists p. rewrite list_lookup_insert_ne by exact Hne. auto.
  - cbn [players]. eauto.
Qed.

(** X18.  A player object that is disconnected stays so: after any run of
    [ConnectPlayer] calls, of the calls of [PlayerOp] on the players and of
    clock ticks, the object at the same reference is still there, still
    disconnected, with the same name and the same object path.  Nothing sets
    the flag back. *)
Theorem disconnected_for_good (ops : list Op) (w : World D B) (r : nat) :
  (_connected <$> players w !! r) = Some false ->
  (_connected <$> players (run PREFIX ops w) !! r) = Some false
  /\ (_name <$> players (run PREFIX ops w) !! r) = (_name <$> players w !! r)
  /\ (_object_path <$> players (run PREFIX ops w) !! r)
     = (_object_path <$> players w !! r).
Proof.
  revert w. induction ops as [|o ops IH]; intros w Hc; [auto|].
  destruct (players w !! r) as [p|] eqn:Hp; [|discriminate].
  injection Hc as Hc.
  destruct (step_keeps_disconnected o w r p Hp Hc) as (p1 & Hp1 & Hc1 & Hn1 & Hpath1).
  change (run PREFIX (o :: ops) w) with (run PREFIX ops (step PREFIX o w)).
  destruct (IH (step PREFIX o w)) as (IH1 & IH2 & IH3).
  { rewrite Hp1. cbn. rewrite Hc1. reflexivity. }
  rewrite IH1, IH2, IH3, Hp1. cbn. rewrite Hn1, Hpath1. auto.
Qed.

(** X19.  With a driver that names its players as requested, in any state
    reached from the creation of the proxy in which [name] is bound to a
    session: once that session is disconnected, [ConnectPlayer name] calls
    the driver again, and when it succeeds the name is bound to a new player
    object, connected, while the old one stays disconnected. *)
Theorem reconnect_is_fresh (cls pname : string) (d : D) (t0 : Z) (ops : list Op)
    (name : string) (r : nat) :
  names_as_requested D B ->
  let w := run PREFIX ops (init_world cls pname d t0) in
  cp_map w !! name = Some (Some r) ->
  let w1 := step PREFIX (OpPlayer r OpDisconnect) w in
  let res := ConnectPlayer PREFIX name w1 in
  driver_calls (log (env (snd res))) = driver_calls (log (env w1)) ++ [name]
  /\ forall path : string,
       fst res = Ok path ->
       exists r', cp_map (snd res) !! name = Some (Some r') /\ r' <> r
                  /\ (_connected <$> players (snd res) !! r') = Some true
                  /\ (_connected <$> players (snd res) !! r) = Some false.
Proof.
  intros Hnames w Hm.
  assert (registry_inv w) as Hinv by (apply inv_run; [exact Hnames|apply inv_init]).
  clearbody w. cbv zeta.
  destruct (inv_live w Hinv name r Hm) as (p & Hp & Hc & Hn & Hr).
  pose proof (lookup_lt_Some _ _ _ Hp) as Hlt.
  set (w1 := step PREFIX (OpPlayer r OpDisconnect) w).
  assert (cp_map w1 = delete name (cp_map w)
          /\ players w1 = <[r := set_connected false p]> (players w)) as [Hm1 Hp1].
  { subst w1. cbn [step]. unfold on_player. rewrite Hp. cbn [player_op].
    rewrite disconnect_eq, Hc. unfold registered in Hr.
    destruct (_disconnect_cb p) as [cb|]; [|discriminate]. cbv zeta.
    unfold cp_map in Hm. rewrite Hn, Hm. split; reflexivity. }
  assert (forall r0, cp_map w1 !! name <> Some (Some r0)) as Hmiss.
  { intros r0. rewrite Hm1, lookup_delete_eq. discriminate. }
  rewrite (ConnectPlayer_miss PREFIX w1 name Hmiss). cbv zeta.
  destruct (do_connect_player name (driver w1)) as [o d'].
  assert (driver_calls
            (log (append_log (DriverCall name)
                    (set_connected_players (<[name := None]> (cp_map w1)) (env w1))))
          = driver_calls (log (env w1)) ++ [name]) as Hd.
  { cbn [log append_log set_connected_players]. unfold driver_calls.
    rewrite omap_app. reflexivity. }
  destruct o as [ex| |n b c].
  - destruct ex; (split; [exact Hd|discriminate]).
  - split; [exact Hd|discriminate].
  - destruct c; cbn [fst snd env]; (split; [exact Hd|]); [|discriminate].
    intros path _. exists (length (players w1)).
    unfold cp_map at 1. cbn [env proxy _connected_players set_connected_players players].
    split; [apply lookup_insert_eq|].
    assert (length (players w1) = length (players w)) as Hlen
      by (rewrite Hp1; apply length_insert).
    split; [lia|]. split.
    + rewrite lookup_snoc_length. reflexivity.
    + rewrite lookup_app_l by lia. rewrite Hp1.
      rewrite list_lookup_insert_eq by exact Hlt. reflexivity.
Qed.
End Registry.

Section FlagBlind.
Context {B : Type} `{!Backend B} (c : bool).

Lemma fb_ret {A} (a : A) : flag_blind c (mret a : PM B A).
Proof. intros p e. reflexivity. Qed.

Lemma fb_raise {A} (ex : exn) : flag_blind c (raise ex : PM B A).
Proof. intros p e. reflexivity. Qed.

Lemma fb_get_env : flag_blind (B:=B) c get_env.
Proof. intros p e. reflexivity. Qed.

Lemma fb_modify_env g : flag_blind (B:=B) c (modify_env g).
Proof. intros p e. reflexivity. Qed.

Lemma fb_modify_self (g : BasePlayer B -> BasePlayer B) :
  (forall p, g (set_connected c p) = set_connected c (g p)) ->
  flag_blind c (modify_self g).
Proof. intros H p e. unfold modify_self. cbn [fst snd]. rewrite H. reflexivity. Qed.

Lemma fb_backend_call {A} (call : Call) (f : B -> result A * B) :
  flag_blind c (backend_call call f).
Proof.
  intros p e. unfold backend_call. cbn [fst snd set_connected derived].
  destruct (f (derived p)) as [r b']. reflexivity.
Qed.

Lemma fb_bind {A A'} (m : PM B A) (k : A -> PM B A') :
  flag_blind c m -> (forall a, flag_blind c (k a)) -> flag_blind c (m ≫= k).
Proof.
  intros Hm Hk p e. unfold mbind, M_bind. rewrite Hm.
  destruct (m (p, e)) as [[a|ex] [p' e']]; [apply Hk|reflexivity].
Qed.

Lemma fb_get_self_bind {A} (k : BasePlayer B -> PM B A) :
  (forall q, k (set_connected c q) = k q) ->
  (forall q, flag_blind c (k q)) ->
  flag_blind c (get_self ≫= k).
Proof.
  intros Heq Hk p e. unfold mbind, M_bind. cbn [get_self fst snd].
  rewrite Heq. apply Hk.
Qed.

Lemma fb_for_each {A} (l : list A) (body : A -> PM B unit) :
  (forall x, flag_blind c (body x)) -> flag_blind c (for_each l body).
Proof.
  intros Hb. induction l as [|x l IH]; cbn [for_each].
  - apply fb_ret.
  - apply fb_bind; [apply Hb|intros _; exact IH].
Qed.
End FlagBlind.

Ltac flag_blind :=
  repeat first
    [ apply fb_ret
    | apply fb_raise
    | apply fb_get_env
    | apply fb_modify_env
    | apply fb_backend_call
    | apply fb_modify_self; intros; reflexivity
    | apply fb_get_self_bind; [intros ?; reflexivity | intros ?]
    | apply fb_bind; [| intros ?]
    | apply fb_for_each; intros ?
    | match goal with
      | |- flag_blind _ (match ?x with _ => _ end) => destruct x
      | |- flag_blind _ (if ?x then _ else _) => destruct x
      end ].

Section NotConsulted.
Context {B : Type} `{!Backend B}.

(** X20.  None of [Seek], [SetPosition], the [Position] getter, the [Volume]
    setter, [track_changed], [status_changed], [caps_changed] and
    [position_changed] looks at the connection flag: run on a session with
    the flag set either way, the call gives the same result and leaves the
    same player, backend, proxy and log, the flag unchanged.  In particular
    a disconnected session still serves them as before. *)
Theorem connected_flag_not_consulted (o : PlayerOp) (c : bool)
    (p : BasePlayer B) (e : Env) :
  o <> OpDisconnect ->
  player_op o (set_connected c p, e)
  = (let '(r, (p', e')) := player_op o (p, e) in (r, (set_connected c p', e'))).
Proof.
  intros Ho. revert p e. change (flag_blind c (player_op o)).
  destruct o; try congruence; cbn [player_op];
    unfold Seek, SetPosition, Position, Volume_dbus_setter, track_changed, status_changed,
      caps_changed, position_changed, _make_metadata,
      assign_property, Can_setter, PlaybackStatus_setter, Metadata_setter,
      _get_cached_position, _setup_timer, _get_cached_status, _setup_timer_status,
      timer_set_time, timer_time, emit;
    flag_blind.
Qed.
End NotConsulted.

(** ** Examples of the further properties of the registry *)

(** A driver that raises an exception other than [TypeError]: the exception
    comes out as it is. *)
Lemma ConnectPlayer_other_exception_witness :
  let res := ConnectPlayer (Driver0 := crashing_driver) example_prefix "a" example_world in
  fst res = Raise (OtherError 7)
  /\ cp_map (snd res) = <["a"%string := None]> (cp_map example_world).
Proof.
  cbv zeta.
  assert (forall r : nat, cp_map example_world !! "a"%string <> Some (Some r)) as Hmiss
    by (intros r; vm_compute; discriminate).
  assert (forall msg : string, OtherError 7 <> TypeError msg) as Hnt
    by (intros msg; discriminate).
  exact (ConnectPlayer_other_exception (Driver0 := crashing_driver) example_prefix
           example_world "a" (OtherError 7) Hmiss eq_refl Hnt).
Defined.

(** The session lost in [lost_world] is still lost after a reconnection of
    its name, a [Seek] on it, a notification and a second [disconnect]. *)
Lemma disconnected_for_good_witness :
  let ops := [OpConnectPlayer "a"; OpPlayer 0 (OpSeek 1000); OpPlayer 0 OpStatusChanged;
              OpTick 5; OpPlayer 0 OpDisconnect] in
  (_connected <$> players (run example_prefix ops lost_world) !! 0%nat) = Some false
  /\ (_name <$> players (run example_prefix ops lost_world) !! 0%nat)
     = (_name <$> players lost_world !! 0%nat)
  /\ (_object_path <$> players (run example_prefix ops lost_world) !! 0%nat)
     = (_object_path <$> players lost_world !! 0%nat).
Proof.
  cbv zeta.
  assert ((_connected <$> players lost_world !! 0%nat) = Some false) as H
    by (vm_compute; reflexivity).
  exact (disconnected_for_good example_prefix _ lost_world 0 H).
Defined.

(** After the session of ["a"] is disconnected, connecting ["a"] again calls
    the driver again and binds the name to a second object. *)
Lemma reconnect_is_fresh_witness :
  let w := run example_prefix [OpConnectPlayer "a"] example_world in
  let w1 := step example_prefix (OpPlayer 0 OpDisconnect) w in
  let res := ConnectPlayer example_prefix "a" w1 in
  driver_calls (log (env (snd res))) = driver_calls (log (env w1)) ++ ["a"%string]
  /\ forall path : string,
       fst res = Ok path ->
       exists r', cp_map (snd res) !! "a"%string = Some (Some r') /\ r' <> 0%nat
                  /\ (_connected <$> players (snd res) !! r') = Some true
                  /\ (_connected <$> players (snd res) !! 0%nat) = Some false.
Proof.
  assert (cp_map (run example_prefix [OpConnectPlayer "a"] example_world) !! "a"%string
          = Some (Some 0%nat)) as H by (vm_compute; reflexivity).
  exact (reconnect_is_fresh example_prefix "Proxy" "simple" tt 0 [OpConnectPlayer "a"]
           "a" 0 (fun name d => eq_refl) H).
Defined.

(** [Seek] on the session of [seek_state], marked as disconnected. *)
Lemma connected_flag_not_consulted_witness :
  player_op (OpSeek 1000) (set_connected false (fst seek_state), snd seek_state)
  = (let '(r, (p', e')) := player_op (OpSeek 1000) (fst seek_state, snd seek_state) in
     (r, (set_connected false p', e'))).
Proof.
  assert (OpSeek 1000 <> OpDisconnect) as H by discriminate.
  exact (connected_flag_not_consulted (OpSeek 1000) false (fst seek_state) (snd seek_state) H).
Defined.
